(** * The rule-based answer evaluator of the RAG experiment (src/evaluator.py)

    A shallow embedding of the class [Evaluator] and the properties its
    specification states about it.

    Modelling conventions.
    - A Python [str] is a list of code points.  The alphabet of the model is
      the code points 0..255 ([Latin a], the character numbered like the
      code point) together with the bullet U+2022, the one character beyond
      that range the source mentions.  On this alphabet [str.lower],
      [str.strip], [\s] and [\d] are written out exactly as CPython defines
      them.
    - A Python [float] is an exact rational ([Q]): a decimal literal denotes
      its decimal value, [+], [*] and [/] are exact, [min] and [round(x, 3)]
      (nearest multiple of 0.001, ties to even) are written out below.  The
      binary rounding error of float arithmetic is not modelled.  Score
      equalities are stated with [==].
    - The patterns given to [re.search] and [re.findall] are terms of a small
      regular-expression type, matched by a backtracking matcher that lists
      the possible ends of a match in the order in which [re] tries them.
    - The dictionary a scorer returns is an association list in the order of
      the dictionary display; [raise ValueError(..)] is the left injection of a
      sum.
    - Beside the evaluator the file embeds [chunk_text] (build_vector_db.py),
      [build_prompt], [generate] and [query] (rag_system.py),
      [load_questions] and [run_experiment] (run_experiment.py) and
      [to_per_model_dict] (visualization.py).  What these functions get from
      outside (the HTTP exchange, the retrieval, the RAG system object, the
      questions directory) is a parameter or an explicit state. *)

From Stdlib Require Import List Bool Arith ZArith QArith Qround Ascii String Lia Lqa.
From Stdlib Require DecimalString.
Import ListNotations.

Close Scope Q_scope.
Open Scope string_scope.
Open Scope nat_scope.
Open Scope list_scope.

Set Implicit Arguments.

(** ** Python strings *)

Module PyStr.

Inductive codepoint : Type :=
| Latin (a : ascii)
| Bullet.

Bind Scope char_scope with codepoint.

Definition str := list codepoint.

(** A string literal of the source. *)
Definition lit (s : string) : str := map Latin (list_ascii_of_string s).

(** [ord(c)] *)
Definition code (c : codepoint) : N :=
  match c with
  | Latin a => N_of_ascii a
  | Bullet => 8226
  end.

Definition codepoint_eqb (c d : codepoint) : bool :=
  match c, d with
  | Latin a, Latin b => Ascii.eqb a b
  | Bullet, Bullet => true
  | _, _ => false
  end.

Definition in_range (lo hi : N) (c : codepoint) : bool :=
  ((lo <=? code c) && (code c <=? hi))%N.

(** [[A-Z]], [[a-z]] and [\d] (the only decimal digits below 256 are 0-9). *)
Definition is_AZ : codepoint -> bool := in_range 65 90.
Definition is_az : codepoint -> bool := in_range 97 122.
Definition is_digit : codepoint -> bool := in_range 48 57.

(** [str.isspace] and [\s]: TAB..CR, FS..US, SPACE, NEL and NBSP. *)
Definition is_space (c : codepoint) : bool :=
  in_range 9 13 c || in_range 28 32 c || (code c =? 133)%N || (code c =? 160)%N.

(** [str.lower] on one code point: A-Z and the capital letters of the
    Latin-1 supplement (all of 192..222 but the multiplication sign 215). *)
Definition lower_char (c : codepoint) : codepoint :=
  if is_AZ c || (in_range 192 222 c && negb (code c =? 215)%N)
  then Latin (ascii_of_N (code c + 32))
  else c.

Definition lower (s : str) : str := map lower_char s.

Fixpoint lstrip (s : str) : str :=
  match s with
  | c :: s' => if is_space c then lstrip s' else s
  | [] => []
  end.

Definition rstrip (s : str) : str := rev (lstrip (rev s)).

Definition strip (s : str) : str := rstrip (lstrip s).

Fixpoint str_eqb (s t : str) : bool :=
  match s, t with
  | [], [] => true
  | a :: s', b :: t' => codepoint_eqb a b && str_eqb s' t'
  | _, _ => false
  end.

(** [strip_prefix t s] is what follows [t] at the start of [s]. *)
Fixpoint strip_prefix (t s : str) : option str :=
  match t, s with
  | [], _ => Some s
  | a :: t', b :: s' => if codepoint_eqb a b then strip_prefix t' s' else None
  | _ :: _, [] => None
  end.

Definition startswith (s t : str) : bool :=
  match strip_prefix t s with Some _ => true | None => false end.

(** [contains t s] is the Python expression [t in s]. *)
Fixpoint contains (t s : str) : bool :=
  startswith s t ||
  match s with
  | [] => false
  | _ :: s' => contains t s'
  end.

End PyStr.

Import PyStr.
Coercion lit : string >-> str.
Coercion Latin : ascii >-> codepoint.

(** ** The fragment of [re] the evaluator uses *)

Module Re.

(** Repetition occurs in the evaluator's patterns only on a one-character
    class, so [Star] takes a class. *)
Inductive regex : Type :=
| Cls (p : codepoint -> bool)
| Lit (t : str)
| Seq (r1 r2 : regex)
| Alt (r1 r2 : regex)
| Star (p : codepoint -> bool).

(** [p+] *)
Definition Plus (p : codepoint -> bool) : regex := Seq (Cls p) (Star p).

Definition Chr (c : codepoint) : regex := Cls (codepoint_eqb c).

(** A greedy star tries the longest run first and gives characters back one
    at a time. *)
Fixpoint star_ends (p : codepoint -> bool) (s : str) : list str :=
  match s with
  | c :: s' => if p c then star_ends p s' ++ [s] else [s]
  | [] => [[]]
  end.

(** [ends r s]: what is left of [s] after a match of [r] at its start, one
    entry per way of matching, in the order the backtracking matcher tries
    them (left alternative first, longest repetition first). *)
Fixpoint ends (r : regex) (s : str) : list str :=
  match r with
  | Cls p => match s with
             | c :: s' => if p c then [s'] else []
             | [] => []
             end
  | Lit t => match strip_prefix t s with
             | Some s' => [s']
             | None => []
             end
  | Seq r1 r2 => flat_map (ends r2) (ends r1 s)
  | Alt r1 r2 => ends r1 s ++ ends r2 s
  | Star p => star_ends p s
  end.

(** [re.match]: the first way that succeeds. *)
Definition match_at (r : regex) (s : str) : option str := hd_error (ends r s).

(** [bool(re.search(r, s))] *)
Fixpoint search (r : regex) (s : str) : bool :=
  match match_at r s with
  | Some _ => true
  | None => match s with
            | [] => false
            | _ :: s' => search r s'
            end
  end.

(** [re.findall(r, s)] for a pattern without groups: the matched substrings,
    scanning from the left and resuming after each match.  [skip] counts the
    characters of [s] that still belong to the previous match.  None of the
    evaluator's patterns matches the empty string (they are not [nullable],
    see [nonempty_ends]), so the branch of an empty match is never taken
    by them. *)
Fixpoint findall_from (r : regex) (s : str) (skip : nat) : list str :=
  match s with
  | [] => match skip, match_at r [] with
          | 0, Some _ => [[]]
          | _, _ => []
          end
  | _ :: s' =>
      match skip with
      | S k => findall_from r s' k
      | 0 => match match_at r s with
             | Some rest =>
                 let n := List.length s - List.length rest in
                 firstn n s :: findall_from r s' (n - 1)
             | None => findall_from r s' 0
             end
      end
  end.

Definition findall (r : regex) (s : str) : list str := findall_from r s 0.

(** [nullable r]: the pattern can match the empty string. *)
Fixpoint nullable (r : regex) : bool :=
  match r with
  | Cls _ => false
  | Lit t => match t with [] => true | _ => false end
  | Seq r1 r2 => nullable r1 && nullable r2
  | Alt r1 r2 => nullable r1 || nullable r2
  | Star _ => true
  end.

(** [invariant_under f r]: every character class of [r] gives the same
    answer on [c] and on [f c], and [r] has no literal. *)
Fixpoint invariant_under (f : codepoint -> codepoint) (r : regex) : Prop :=
  match r with
  | Cls p | Star p => forall c, p (f c) = p c
  | Lit _ => False
  | Seq r1 r2 | Alt r1 r2 => invariant_under f r1 /\ invariant_under f r2
  end.

(** The words a pattern denotes. *)
Inductive matches : regex -> str -> Prop :=
| M_Cls p c : p c = true -> matches (Cls p) [c]
| M_Lit t : matches (Lit t) t
| M_Seq r1 r2 w1 w2 :
    matches r1 w1 -> matches r2 w2 -> matches (Seq r1 r2) (w1 ++ w2)
| M_AltL r1 r2 w : matches r1 w -> matches (Alt r1 r2) w
| M_AltR r1 r2 w : matches r2 w -> matches (Alt r1 r2) w
| M_Star p w : forallb p w = true -> matches (Star p) w.

(** [occurs r s]: some substring of [s] is a word of [r]. *)
Definition occurs (r : regex) (s : str) : Prop :=
  exists pre w post, s = pre ++ w ++ post /\ matches r w.

End Re.

(** ** Python numbers *)

Module PyNum.

Local Open Scope Q_scope.

(** [min(a, b)] returns [a] unless [b < a]. *)
Definition min (a b : Q) : Q := if Qle_bool a b then a else b.

(** The integer nearest to [q], ties to the even one. *)
Definition round_half_even (q : Q) : Z :=
  let f := Qfloor q in
  match Qcompare (q - inject_Z f) (1 # 2) with
  | Lt => f
  | Gt => (f + 1)%Z
  | Eq => if Z.even f then f else (f + 1)%Z
  end.

(** [round(x, 3)] *)
Definition round3 (x : Q) : Q := round_half_even (x * 1000) # 1000.

(** [n / d] for an [int] n and a [float] d. *)
Definition int_div (n : nat) (d : Q) : Q := inject_Z (Z.of_nat n) / d.

End PyNum.

(** ** Dictionaries *)

Module Dict.

Inductive value : Type :=
| VStr (s : str)
| VFloat (x : Q)
| VInt (n : nat)
| VBool (b : bool).

(** [d.get(k)] *)
Fixpoint get {V : Type} (d : list (str * V)) (k : str) : option V :=
  match d with
  | [] => None
  | (k', v) :: d' => if str_eqb k' k then Some v else get d' k
  end.

End Dict.

(** ** class Evaluator *)

Module Evaluator.

Import Re PyNum Dict.

Declare Scope re_scope.
Delimit Scope re_scope with re.
Bind Scope re_scope with regex.
Infix ">>" := Seq (at level 41, right associativity) : re_scope.
Infix "<|>" := Alt (at level 51, right associativity) : re_scope.

Local Open Scope Q_scope.

Definition result := list (str * value).

(** The patterns, in the order they appear in the source. *)

(** [\d+] *)
Definition re_number : regex := Plus is_digit.

(** [http|www\.] *)
Definition re_url : regex := (Lit "http" <|> Lit "www.")%re.

(** [[A-Z][a-z]+\s+[A-Z][a-z]+] *)
Definition re_specific_name : regex :=
  (Cls is_AZ >> Plus is_az >> Plus is_space >> Cls is_AZ >> Plus is_az)%re.

(** [\d+\.] *)
Definition re_numbered : regex := (Plus is_digit >> Chr ".")%re.

(** [step \d+] *)
Definition re_step : regex := (Lit "step " >> Plus is_digit)%re.

(** [first|second|third|then|next|finally] *)
Definition re_order_word : regex :=
  (Lit "first" <|> Lit "second" <|> Lit "third" <|> Lit "then" <|> Lit "next"
   <|> Lit "finally")%re.

(** The class [[-•*]] *)
Definition is_bullet (c : codepoint) : bool :=
  codepoint_eqb c "-" || codepoint_eqb c Bullet || codepoint_eqb c "*".

(** [\n\s*[-•*]|\d+\.] *)
Definition re_structure : regex :=
  ((Chr "010" >> Star is_space >> Cls is_bullet) <|> (Plus is_digit >> Chr "."))%re.

(** [recommend|suggest|should|could try] *)
Definition re_recommendation : regex :=
  (Lit "recommend" <|> Lit "suggest" <|> Lit "should" <|> Lit "could try")%re.

(** [\d+\)|option \d+|alternatively] *)
Definition re_option : regex :=
  ((Plus is_digit >> Chr ")") <|> (Lit "option " >> Plus is_digit)
   <|> Lit "alternatively")%re.

Definition vague_terms : list str :=
  [lit "maybe"; lit "might"; lit "possibly"; lit "unclear"; lit "i don't know"].

Definition step_patterns : list regex := [re_numbered; re_step; re_order_word].

Definition connectors : list str :=
  [lit "first"; lit "then"; lit "next"; lit "after"; lit "finally"; lit "before"].

Definition action_verbs : list str :=
  [lit "click"; lit "go"; lit "visit"; lit "submit"; lit "fill"; lit "select";
   lit "open"; lit "enter"].

Definition comparison_words : list str :=
  [lit "compare"; lit "difference"; lit "similar"; lit "both"; lit "while";
   lit "whereas"; lit "however"; lit "in contrast"; lit "on the other hand"].

Definition dimensions : list str :=
  [lit "cost"; lit "location"; lit "facility"; lit "time"; lit "quality";
   lit "size"; lit "distance"].

Definition reasoning_words : list str :=
  [lit "because"; lit "since"; lit "as"; lit "due to"; lit "offers";
   lit "provides"; lit "has"].

Definition constraint_words : list str :=
  [lit "budget"; lit "time"; lit "location"; lit "prefer"; lit "near";
   lit "available"; lit "suitable"].

(** [sum(1 for w in words if w in text)] *)
Definition count_present (words : list str) (text : str) : nat :=
  List.length (filter (fun w => contains w text) words).

(** [any(term in text for term in terms)] *)
Definition any_present (terms : list str) (text : str) : bool :=
  existsb (fun term => contains term text) terms.

Definition evaluate_factual (answer : str) : result :=
  let answer_lower := strip (lower answer) in
  let length := List.length answer in
  let length_score :=
    if length <=? 150 then 1.0
    else if length <=? 300 then 0.8
    else 0.5 in
  let has_number := search re_number answer in
  let has_url := search re_url answer_lower in
  let has_specific_name := search re_specific_name answer in
  let specificity_score :=
    (if has_number then 0.4 else 0) +
    (if has_url then 0.3 else 0) +
    (if has_specific_name then 0.3 else 0) in
  let has_vague := any_present vague_terms answer_lower in
  let clarity_score := if has_vague then 0.0 else 1.0 in
  let total_score :=
    0.3 * length_score + 0.4 * specificity_score + 0.3 * clarity_score in
  [ (lit "category", VStr "factual");
    (lit "length_score", VFloat (round3 length_score));
    (lit "specificity_score", VFloat (round3 specificity_score));
    (lit "clarity_score", VFloat (round3 clarity_score));
    (lit "total_score", VFloat (round3 total_score));
    (lit "answer_length", VInt length);
    (lit "has_specific_info", VBool (has_number || has_url || has_specific_name)) ].

Definition evaluate_procedural (answer : str) : result :=
  let answer_lower := lower answer in
  let step_markers :=
    fold_left (fun acc pattern => acc + List.length (findall pattern answer_lower))%nat
              step_patterns 0%nat in
  let step_score := min (int_div step_markers 3.0) 1.0 in
  let connector_count := count_present connectors answer_lower in
  let logic_score := min (int_div connector_count 3.0) 1.0 in
  let action_count := count_present action_verbs answer_lower in
  let action_score := min (int_div action_count 4.0) 1.0 in
  let total_score := 0.4 * step_score + 0.3 * logic_score + 0.3 * action_score in
  [ (lit "category", VStr "procedural");
    (lit "step_score", VFloat (round3 step_score));
    (lit "logic_score", VFloat (round3 logic_score));
    (lit "action_score", VFloat (round3 action_score));
    (lit "total_score", VFloat (round3 total_score));
    (lit "step_markers_found", VInt step_markers);
    (lit "connectors_found", VInt connector_count);
    (lit "actions_found", VInt action_count) ].

Definition evaluate_comparative (answer : str) : result :=
  let answer_lower := lower answer in
  let comparison_count := count_present comparison_words answer_lower in
  let comparison_score := min (int_div comparison_count 3.0) 1.0 in
  let dimension_count := count_present dimensions answer_lower in
  let dimension_score := min (int_div dimension_count 2.0) 1.0 in
  let has_structure := search re_structure answer in
  let structure_score := if has_structure then 1.0 else 0.5 in
  let length := List.length answer in
  let length_score :=
    if 200 <=? length then 1.0
    else if 100 <=? length then 0.7
    else 0.4 in
  let total_score :=
    0.3 * comparison_score + 0.3 * dimension_score +
    0.2 * structure_score + 0.2 * length_score in
  [ (lit "category", VStr "comparative");
    (lit "comparison_score", VFloat (round3 comparison_score));
    (lit "dimension_score", VFloat (round3 dimension_score));
    (lit "structure_score", VFloat (round3 structure_score));
    (lit "length_score", VFloat (round3 length_score));
    (lit "total_score", VFloat (round3 total_score));
    (lit "comparison_words_found", VInt comparison_count);
    (lit "dimensions_found", VInt dimension_count) ].

Definition evaluate_recommendation (answer : str) : result :=
  let answer_lower := lower answer in
  let has_recommendation := search re_recommendation answer_lower in
  let recommendation_score := if has_recommendation then 1.0 else 0.0 in
  let reasoning_count := count_present reasoning_words answer_lower in
  let reasoning_score := min (int_div reasoning_count 2.0) 1.0 in
  let constraint_count := count_present constraint_words answer_lower in
  let constraint_score := min (int_div constraint_count 2.0) 1.0 in
  let option_markers := List.length (findall re_option answer_lower) in
  let diversity_score := min (int_div option_markers 2.0) 1.0 in
  let total_score :=
    0.3 * recommendation_score + 0.3 * reasoning_score +
    0.25 * constraint_score + 0.15 * diversity_score in
  [ (lit "category", VStr "recommendation");
    (lit "recommendation_score", VFloat (round3 recommendation_score));
    (lit "reasoning_score", VFloat (round3 reasoning_score));
    (lit "constraint_score", VFloat (round3 constraint_score));
    (lit "diversity_score", VFloat (round3 diversity_score));
    (lit "total_score", VFloat (round3 total_score));
    (lit "has_recommendation", VBool has_recommendation);
    (lit "reasoning_indicators", VInt reasoning_count);
    (lit "constraint_awareness", VInt constraint_count) ].

Inductive exn : Type :=
| ValueError (msg : str).

Definition evaluators : list (str * (str -> result)) :=
  [ (lit "factual", evaluate_factual);
    (lit "procedural", evaluate_procedural);
    (lit "comparative", evaluate_comparative);
    (lit "recommendation", evaluate_recommendation) ].

Definition evaluate (answer question_type : str) : exn + result :=
  match get evaluators question_type with
  | Some evaluator => inr (evaluator answer)
  | None => inl (ValueError (lit "Unknown question type: " ++ question_type))
  end.

End Evaluator.

(** ** Built-in functions used outside the evaluator *)

Module Builtins.

Import Evaluator.

(** [s.split()]: the maximal runs of characters that are not white space.
    [word] is the run being read. *)
Fixpoint split_from (s : str) (word : str) : list str :=
  match s with
  | [] => match word with
          | [] => []
          | _ => [word]
          end
  | c :: s' =>
      if is_space c
      then match word with
           | [] => split_from s' []
           | _ => word :: split_from s' []
           end
      else split_from s' (word ++ [c])
  end.

Definition split (s : str) : list str := split_from s [].

(** [sep.join(l)] *)
Fixpoint join (sep : str) (l : list str) : str :=
  match l with
  | [] => []
  | x :: l' => match l' with
               | [] => x
               | _ => x ++ sep ++ join sep l'
               end
  end.

(** [range(start, stop, step)], as the list of its elements.  At most
    [|stop - start|] elements lie between the bounds, which is the fuel. *)
Fixpoint range_up (fuel : nat) (i stop step : Z) : list Z :=
  match fuel with
  | O => []
  | S fuel' => if (i <? stop)%Z then i :: range_up fuel' (i + step) stop step else []
  end.

Fixpoint range_down (fuel : nat) (i stop step : Z) : list Z :=
  match fuel with
  | O => []
  | S fuel' => if (stop <? i)%Z then i :: range_down fuel' (i + step) stop step else []
  end.

Definition range (start stop step : Z) : exn + list Z :=
  if (step =? 0)%Z then inl (ValueError (lit "range() arg 3 must not be zero"))
  else if (0 <? step)%Z
       then inr (range_up (Z.to_nat (stop - start)) start stop step)
       else inr (range_down (Z.to_nat (start - stop)) start stop step).

(** A slice bound: a negative one counts from the end, and both are cut to
    the list. *)
Definition slice_index (n : nat) (k : Z) : nat :=
  Z.to_nat (if (k <? 0)%Z then Z.max 0 (k + Z.of_nat n) else Z.min k (Z.of_nat n)).

(** [l[lo:hi]] *)
Definition slice {A : Type} (l : list A) (lo hi : Z) : list A :=
  let a := slice_index (List.length l) lo in
  let b := slice_index (List.length l) hi in
  firstn (b - a) (skipn a l).

(** [enumerate(l)] *)
Fixpoint enumerate_from {A : Type} (i : nat) (l : list A) : list (nat * A) :=
  match l with
  | [] => []
  | x :: l' => (i, x) :: enumerate_from (S i) l'
  end.

Definition enumerate {A : Type} (l : list A) : list (nat * A) := enumerate_from 0 l.

(** [d[k] = v]: the value of an existing key is replaced where it stands, a
    new key goes to the end. *)
Fixpoint dict_set {V : Type} (d : list (str * V)) (k : str) (v : V) : list (str * V) :=
  match d with
  | [] => [(k, v)]
  | (k', v') :: d' =>
      if str_eqb k' k then (k', v) :: d' else (k', v') :: dict_set d' k v
  end.

(** The truth value of a string. *)
Definition truthy (s : str) : bool :=
  match s with
  | [] => false
  | _ => true
  end.

End Builtins.

(** ** build_vector_db.py *)

Module BuildVectorDb.

Import Evaluator Builtins.

Definition chunk_text (text : str) (chunk_size overlap : Z) : exn + list str :=
  let words := split text in
  match range 0 (Z.of_nat (List.length words)) (chunk_size - overlap) with
  | inl e => inl e
  | inr indices =>
      inr (fold_left
             (fun chunks i =>
                let chunk := join (lit " ") (slice words i (i + chunk_size)) in
                if truthy (strip chunk) then chunks ++ [chunk] else chunks)
             indices [])
  end.

(** The defaults of the two keyword parameters. *)
Definition default_chunk_size : Z := 300.
Definition default_overlap : Z := 50.

End BuildVectorDb.

(** ** rag_system.py *)

Module RagSystem.

Import Evaluator Builtins.

Definition newline : str := [Latin "010"].

(** [str(n)] for an [int] that is not negative. *)
Definition str_of_nat (n : nat) : str :=
  lit (DecimalString.NilEmpty.string_of_uint (Nat.to_uint n)).

(** One entry of the list [retrieve] returns; [M] is the type of the
    metadata the vector store keeps. *)
Record retrieved_doc (M : Type) : Type := {
  content : str;
  metadata : M;
  distance : option Q
}.

Definition type_instructions : list (str * str) :=
  [ (lit "factual",
     lit "Answer with a short, precise response. Include specific details like numbers, dates, or locations.");
    (lit "procedural",
     lit "Provide a step-by-step guide. Number each step clearly.");
    (lit "comparative",
     lit "Compare the options mentioned. Discuss similarities and differences across multiple dimensions.");
    (lit "recommendation",
     lit "Give personalized recommendations based on the constraints mentioned. Explain your reasoning.") ].

Definition default_instruction : str :=
  lit "Answer the question based on the context.".

Definition build_prompt {M : Type} (question : str)
    (retrieved_docs : list (retrieved_doc M)) (question_type : str) : str :=
  let context :=
    join (newline ++ newline)
         (map (fun id : nat * retrieved_doc M =>
                 lit "[Document " ++ str_of_nat (fst id + 1) ++ lit "]" ++ newline
                 ++ content (snd id))
              (enumerate retrieved_docs)) in
  let instruction :=
    match Dict.get type_instructions question_type with
    | Some text => text
    | None => default_instruction
    end in
  lit "You are a helpful assistant for NUS (National University of Singapore) students."
  ++ newline ++ newline
  ++ lit "Context:" ++ newline
  ++ context ++ newline ++ newline
  ++ lit "Question: " ++ question ++ newline ++ newline
  ++ lit "Instructions: " ++ instruction ++ newline ++ newline
  ++ lit "Answer:".

(** [str(n)] for an [int]. *)
Definition str_of_int (z : Z) : str :=
  if (z <? 0)%Z then lit "-" ++ str_of_nat (Z.to_nat (- z)) else str_of_nat (Z.to_nat z).

(** The keyword arguments of [requests.post]. *)
Record request : Type := {
  url : str;
  json_model : str;
  json_prompt : str;
  json_temperature : Q;
  json_stream : bool;
  timeout : Z
}.

(** What the body of a reply decodes to: [response.json()] or the reading of
    the result raises [e] ([text] is [str(e)]), or the body is a JSON object,
    with or without a string member "response". *)
Inductive decoded : Type :=
| DecodeRaised (text : str)
| JsonObject (response : option str).

(** What the call of [requests.post] comes to: it raises [e] ([text] is
    [str(e)]), or there is a reply. *)
Inductive exchange : Type :=
| PostRaised (text : str)
| Reply (status_code : Z) (body : decoded).

(** The dictionary [generate] returns; a key that is absent is [None]. *)
Record generation : Type := {
  g_success : bool;
  g_response : option str;
  g_error : option str;
  g_model : str
}.

(** The dictionary [query] returns. *)
Record answer_record (M : Type) : Type := {
  a_question : str;
  a_question_type : str;
  a_model : str;
  a_retrieved_docs : list (retrieved_doc M);
  a_answer : str;
  a_success : bool;
  a_error : option str
}.

Section WithServices.

(** The state of the world, the metadata of the vector store, and what the
    vector store may raise. *)
Variables W M C : Type.

(** [requests.post] and [self.retrieve], as functions of the state. *)
Variable post : W -> request -> W * exchange.
Variable retrieve : W -> str -> Z -> W * (C + list (retrieved_doc M)).

(** [OllamaClient.generate] *)
Definition generate (base_url : str) (w : W) (model prompt : str) (temperature : Q)
  : W * generation :=
  let (w', reply) :=
    post w {| url := base_url ++ lit "/api/generate";
              json_model := model;
              json_prompt := prompt;
              json_temperature := temperature;
              json_stream := false;
              timeout := 120 |} in
  match reply with
  | Reply status_code body =>
      if (status_code =? 200)%Z
      then match body with
           | JsonObject response =>
               (w', {| g_success := true;
                       g_response := Some (match response with
                                           | Some text => text
                                           | None => lit ""
                                           end);
                       g_error := None;
                       g_model := model |})
           | DecodeRaised text =>
               (w', {| g_success := false; g_response := None;
                       g_error := Some text; g_model := model |})
           end
      else (w', {| g_success := false; g_response := None;
                   g_error := Some (lit "HTTP " ++ str_of_int status_code);
                   g_model := model |})
  | PostRaised text =>
      (w', {| g_success := false; g_response := None;
              g_error := Some text; g_model := model |})
  end.

(** [RAGSystem.query]; the client is built with the default base URL. *)
Definition query (w : W) (question model question_type : str) (top_k : Z)
  : W * (C + answer_record M) :=
  match retrieve w question top_k with
  | (w1, inl e) => (w1, inl e)
  | (w1, inr retrieved_docs) =>
      let prompt := build_prompt question retrieved_docs question_type in
      let (w2, result) := generate (lit "http://localhost:11434") w1 model prompt 0.7 in
      (w2, inr {| a_question := question;
                  a_question_type := question_type;
                  a_model := model;
                  a_retrieved_docs := retrieved_docs;
                  a_answer := match g_response result with
                              | Some text => text
                              | None => lit ""
                              end;
                  a_success := g_success result;
                  a_error := g_error result |})
  end.

End WithServices.

End RagSystem.

(** ** run_experiment.py

    [run_experiment] is modelled for the value it returns and the exceptions
    it lets through.  The object [rag_system] is a parameter of the function:
    it appears as its method [query], a function of an explicit state [W]
    (the vector store, the language model, the clock) that returns the new
    state and either an exception or what the code reads of the returned
    dictionary.  Console and file output are not modelled. *)

Module RunExperiment.

Import Evaluator PyNum Builtins.

(** What [run_experiment] reads of the dictionary [rag_system.query] returns;
    [D] is the type of a retrieved document. *)
Record query_result (D : Type) : Type := {
  q_success : bool;
  q_answer : str;
  q_retrieved_docs : list D;
  q_error : option str
}.

(** The dictionary [full_result]. *)
Record full_result : Type := {
  question : str;
  answer : str;
  retrieved_docs_count : nat;
  evaluation : result
}.

(** The dictionary stored under [model_results[qtype]]. *)
Record type_summary : Type := {
  questions_count : nat;
  average_score : Q;
  details : list full_result
}.

(** The exceptions that can leave [run_experiment]; [E] is the type of what
    [rag_system.query] may raise. *)
Inductive raised (E : Type) : Type :=
| QueryRaised (e : E)
| EvaluateRaised (e : exn)
| KeyError (key : str)
| TypeError.

Arguments EvaluateRaised {E} e.
Arguments KeyError {E} key.
Arguments TypeError {E}.

(** [x / n] for a [float] x and an [int] n. *)
Definition int_div_by (x : Q) (n : nat) : Q := (x / inject_Z (Z.of_nat n))%Q.

Section WithRagSystem.

Variables W E D : Type.
Variable rag_query : W -> str -> str -> str -> Z -> W * (E + query_result D).

(** The loop over the questions of one type, from the list [type_results]
    collected so far. *)
Fixpoint ask_all (w : W) (model qtype : str) (questions : list str)
    (type_results : list full_result) : W * (raised E + list full_result) :=
  match questions with
  | [] => (w, inr type_results)
  | question :: questions' =>
      match rag_query w question model qtype 5 with
      | (w', inl e) => (w', inl (QueryRaised e))
      | (w', inr result) =>
          if q_success result
          then match evaluate (q_answer result) qtype with
               | inl e => (w', inl (EvaluateRaised e))
               | inr evaluation =>
                   ask_all w' model qtype questions'
                     (type_results ++
                      [ {| question := question;
                           answer := q_answer result;
                           retrieved_docs_count := List.length (q_retrieved_docs result);
                           evaluation := evaluation |} ])
               end
          else ask_all w' model qtype questions' type_results
      end
  end.

(** [r['evaluation']['total_score']], as a number [sum] can add. *)
Definition total_score_of (r : full_result) : raised E + Q :=
  match Dict.get (evaluation r) (lit "total_score") with
  | Some (Dict.VFloat x) => inr x
  | Some (Dict.VInt n) => inr (inject_Z (Z.of_nat n))
  | Some (Dict.VBool b) => inr (if b then 1 else 0)%Q
  | Some (Dict.VStr _) => inl TypeError
  | None => inl (KeyError (lit "total_score"))
  end.

(** [sum(r['evaluation']['total_score'] for r in type_results)] from [acc]. *)
Fixpoint sum_totals (type_results : list full_result) (acc : Q) : raised E + Q :=
  match type_results with
  | [] => inr acc
  | r :: rest =>
      match total_score_of r with
      | inl e => inl e
      | inr x => sum_totals rest (acc + x)%Q
      end
  end.

(** The dictionary built when [type_results] is not empty. *)
Definition summarise (type_results : list full_result) : raised E + type_summary :=
  match sum_totals type_results 0%Q with
  | inl e => inl e
  | inr total =>
      let avg_score := int_div_by total (List.length type_results) in
      inr {| questions_count := List.length type_results;
             average_score := round3 avg_score;
             details := type_results |}
  end.

(** The loop over [questions_dict.items()] for one model. *)
Fixpoint run_types (w : W) (model : str) (items : list (str * list str))
    (model_results : list (str * type_summary))
  : W * (raised E + list (str * type_summary)) :=
  match items with
  | [] => (w, inr model_results)
  | (qtype, questions) :: items' =>
      match questions with
      | [] => run_types w model items' model_results
      | _ =>
          match ask_all w model qtype questions [] with
          | (w', inl e) => (w', inl e)
          | (w', inr type_results) =>
              match type_results with
              | [] => run_types w' model items' model_results
              | _ =>
                  match summarise type_results with
                  | inl e => (w', inl e)
                  | inr summary =>
                      run_types w' model items' (dict_set model_results qtype summary)
                  end
              end
          end
      end
  end.

(** The loop over the models. *)
Fixpoint run_models (w : W) (models : list str) (questions_dict : list (str * list str))
    (all_results : list (str * list (str * type_summary)))
  : W * (raised E + list (str * list (str * type_summary))) :=
  match models with
  | [] => (w, inr all_results)
  | model :: models' =>
      match run_types w model questions_dict [] with
      | (w', inl e) => (w', inl e)
      | (w', inr model_results) =>
          run_models w' models' questions_dict (dict_set all_results model model_results)
      end
  end.

Definition run_experiment (w : W) (models : list str)
    (questions_dict : list (str * list str))
  : W * (raised E + list (str * list (str * type_summary))) :=
  run_models w models questions_dict [].

End WithRagSystem.

(** [load_questions].  Of the file system the function sees the directory
    [questions_dir]: it is absent, or present with text files, name to
    content.  Console output is not modelled. *)
Inductive directory : Type :=
| Absent
| Present (files : list (str * str)).

Definition question_types : list str :=
  [lit "factual"; lit "procedural"; lit "comparative"; lit "recommendation"].

Definition examples : list (str * list str) :=
  [ (lit "factual",
     [lit "What is the address of NUS Central Library?";
      lit "How many residential colleges does NUS have?";
      lit "What are the operating hours of MPSH gym?"]);
    (lit "procedural",
     [lit "How do I apply for on-campus accommodation?";
      lit "What is the process for module registration?";
      lit "How do I book a study room in the library?"]);
    (lit "comparative",
     [lit "What are the differences between Halls and Residential Colleges?";
      lit "Compare UTown Residence and PGPR.";
      lit "Compare Central Library and Science Library."]);
    (lit "recommendation",
     [lit "Which hall should I choose if I want an active social life?";
      lit "I'm on a budget. What accommodation do you recommend?";
      lit "Where should I eat if I'm vegetarian?"]) ].

Definition line_feed : codepoint := Latin "010".
Definition carriage_return : codepoint := Latin "013".

(** The lines a text file yields when it is iterated: a line ends after a
    line feed, a carriage return or the two in a row, each read as one line
    feed.  [line] is the line being read. *)
Fixpoint lines_from (content : str) (line : str) : list str :=
  match content with
  | [] => match line with
          | [] => []
          | _ => [line]
          end
  | c :: content' =>
      if codepoint_eqb c line_feed then (line ++ [line_feed]) :: lines_from content' []
      else if codepoint_eqb c carriage_return
           then match content' with
                | d :: content'' =>
                    if codepoint_eqb d line_feed
                    then (line ++ [line_feed]) :: lines_from content'' []
                    else (line ++ [line_feed]) :: lines_from content' []
                | [] => (line ++ [line_feed]) :: lines_from content' []
                end
           else lines_from content' (line ++ [c])
  end.

Definition lines (content : str) : list str := lines_from content [].

(** [[line.strip() for line in f if line.strip()]] *)
Definition read_questions (content : str) : list str :=
  map strip (filter (fun line => truthy (strip line)) (lines content)).

Definition load_questions (questions_dir : directory)
  : directory * option (list (str * list str)) :=
  match questions_dir with
  | Absent =>
      (Present
         (fold_left
            (fun files (item : str * list str) =>
               dict_set files (fst item ++ lit ".txt")
                        (join [line_feed] (snd item)))
            examples []),
       None)
  | Present files =>
      (questions_dir,
       Some
         (fold_left
            (fun all_questions qtype =>
               match Dict.get files (qtype ++ lit ".txt") with
               | Some content => dict_set all_questions qtype (read_questions content)
               | None => dict_set all_questions qtype []
               end)
            question_types []))
  end.

End RunExperiment.

(** ** visualization.py *)

Module Visualization.

Import Builtins.

Inductive lookup_error : Type :=
| KeyError (key : str)
| IndexError.

Section Tables.

(** The type of a score in the tables. *)
Variable A : Type.

(** [[cat_dict[c][i] for c in categories]] *)
Fixpoint row (cat_dict : list (str * list A)) (categories : list str) (i : nat)
  : lookup_error + list A :=
  match categories with
  | [] => inr []
  | c :: categories' =>
      match Dict.get cat_dict c with
      | None => inl (KeyError c)
      | Some scores =>
          match nth_error scores i with
          | None => inl IndexError
          | Some v =>
              match row cat_dict categories' i with
              | inl e => inl e
              | inr vs => inr (v :: vs)
              end
          end
      end
  end.

(** The loop over [enumerate(models)], from the dictionary built so far. *)
Fixpoint fill (numbered : list (nat * str)) (categories : list str)
    (cat_dict : list (str * list A)) (per_model : list (str * list A))
  : lookup_error + list (str * list A) :=
  match numbered with
  | [] => inr per_model
  | (i, m) :: numbered' =>
      match row cat_dict categories i with
      | inl e => inl e
      | inr values => fill numbered' categories cat_dict (dict_set per_model m values)
      end
  end.

Definition to_per_model_dict (models categories : list str)
    (cat_dict : list (str * list A)) : lookup_error + list (str * list A) :=
  fill (enumerate models) categories cat_dict [].

End Tables.

End Visualization.

(** ** Reading a result *)

Import Evaluator.

(** [r[k]] when it is a float. *)
Definition float_field (r : result) (k : string) : option Q :=
  match Dict.get r (lit k) with
  | Some (Dict.VFloat x) => Some x
  | _ => None
  end.

(** [r[k]] when it is an int. *)
Definition int_field (r : result) (k : string) : option nat :=
  match Dict.get r (lit k) with
  | Some (Dict.VInt n) => Some n
  | _ => None
  end.

(** The float [r[k]] is the number [q]. *)
Definition score_is (r : result) (k : string) (q : Q) : Prop :=
  exists x, float_field r k = Some x /\ (x == q)%Q.

(** [r[k]] when it is a bool. *)
Definition bool_field (r : result) (k : string) : option bool :=
  match Dict.get r (lit k) with
  | Some (Dict.VBool b) => Some b
  | _ => None
  end.

(** Several float fields, several int fields at once. *)
Definition scores (r : result) (l : list (string * Q)) : Prop :=
  Forall (fun kq => score_is r (fst kq) (snd kq)) l.

Definition ints (r : result) (l : list (string * nat)) : Prop :=
  Forall (fun kn => int_field r (fst kn) = Some (snd kn)) l.

(** A word that neither starts nor ends with white space (and is not
    empty): [strip] cannot cut into an occurrence of it. *)
Definition solid (t : str) : bool :=
  match t with
  | [] => false
  | a :: _ => negb (is_space a) && negb (is_space (last t a))
  end.

(** ** The vocabulary of the specification *)

(** The answer contains a newline followed by optional white space and a
    bullet character. *)
Definition bullet_line (answer : str) : Prop :=
  exists pre ws b post,
    answer = pre ++ [Latin "010"] ++ ws ++ [b] ++ post /\
    forallb is_space ws = true /\
    (b = Latin "-" \/ b = Bullet \/ b = Latin "*").

(** The answer contains a numbered-list marker: digits followed by a
    period. *)
Definition numbered_marker (answer : str) : Prop :=
  exists pre ds post,
    answer = pre ++ ds ++ [Latin "."] ++ post /\
    ds <> [] /\ forallb is_digit ds = true.

(** A numbered-list marker, a "step n" phrase, the six order words. *)
Definition numbered_word (m : str) : Prop :=
  exists ds, m = ds ++ [Latin "."] /\ ds <> [] /\ forallb is_digit ds = true.

Definition step_phrase (m : str) : Prop :=
  exists ds, m = lit "step " ++ ds /\ ds <> [] /\ forallb is_digit ds = true.

Definition order_words : list str :=
  [lit "first"; lit "second"; lit "third"; lit "then"; lit "next"; lit "finally"].

(** The lower-cased answer contains neither "http" nor "www.". *)
Definition no_url (answer : str) : Prop :=
  contains (lit "http") (lower answer) = false /\
  contains (lit "www.") (lower answer) = false.

(** A well-formed URL: it starts with a scheme or with "www." (in any
    case) and contains no white space. *)
Definition well_formed_url (u : str) : bool :=
  (startswith (lower u) (lit "http://") || startswith (lower u) (lit "https://")
   || startswith (lower u) (lit "www."))
  && negb (existsb is_space u).

(** A word in the sense of [split]: not empty, no white space. *)
Definition nospace (w : str) : bool := forallb (fun c => negb (is_space c)) w.

Definition is_word (w : str) : Prop := w <> [] /\ nospace w = true.

(** The words of chunk number [k]: [size] words from word [k * step] on. *)
Definition window {A : Type} (words : list A) (size step k : nat) : list A :=
  firstn size (skipn (k * step) words).

(** The number of chunks: [n / step] rounded up. *)
Definition chunk_count (n step : nat) : nat := (n + step - 1) / step.

(** The instruction [build_prompt] puts into the prompt for a question type
    (its local variable [instruction]). *)
Definition instruction_for (question_type : str) : str :=
  match Dict.get RagSystem.type_instructions question_type with
  | Some text => text
  | None => RagSystem.default_instruction
  end.

(** The block [build_prompt] writes for document number [i] (from 0). *)
Definition document_block {M : Type} (i : nat) (doc : RagSystem.retrieved_doc M) : str :=
  lit "[Document " ++ RagSystem.str_of_nat (i + 1) ++ lit "]" ++ RagSystem.newline
  ++ RagSystem.content doc.

(** The four keys of the dispatch table. *)
Definition categories : list str := map fst evaluators.

(** A question that can be written on one line: no line feed, no carriage
    return. *)
Definition one_line (q : str) : bool :=
  forallb (fun c => negb (codepoint_eqb c RunExperiment.line_feed
                          || codepoint_eqb c RunExperiment.carriage_return)) q.

(** A detail record holds the evaluation of its answer for the type. *)
Definition scored (qtype : str) (r : RunExperiment.full_result) : Prop :=
  evaluate (RunExperiment.answer r) qtype = inr (RunExperiment.evaluation r).

(** [P] holds of every key and value of a dictionary. *)
Definition all_entries {V : Type} (P : str -> V -> Prop) (d : list (str * V)) : Prop :=
  forall k v, Dict.get d k = Some v -> P k v.

(** What holds of a summary stored under [model_results[qtype]]: the type is
    one the evaluator knows, at least one question was scored, the count is
    the number of detail records, the average lies between 0 and 1, and every
    detail record holds the evaluation of its answer. *)
Definition well_formed_summary (qtype : str) (s : RunExperiment.type_summary) : Prop :=
  In qtype categories /\
  1 <= RunExperiment.questions_count s /\
  RunExperiment.questions_count s = List.length (RunExperiment.details s) /\
  (0 <= RunExperiment.average_score s <= 1)%Q /\
  Forall (scored qtype) (RunExperiment.details s).

(** The exceptions a run can end with: one raised by [rag_system.query], or
    the evaluator's error for a key of [questions_dict] that is not a
    category. *)
Definition expected_exception {E : Type} (questions_dict : list (str * list str))
    (e : RunExperiment.raised E) : Prop :=
  match e with
  | RunExperiment.QueryRaised _ => True
  | RunExperiment.EvaluateRaised x =>
      exists qtype questions,
        In (qtype, questions) questions_dict /\ ~ In qtype categories /\
        x = ValueError (lit "Unknown question type: " ++ qtype)
  | RunExperiment.KeyError _ => False
  | RunExperiment.TypeError => False
  end.

(** A RAG system whose vector store is missing, for examples. *)
Definition store_is_down (w : unit) (question model qtype : str) (top_k : Z)
  : unit * (str + RunExperiment.query_result unit) :=
  (w, inl (lit "Collection nus_docs does not exist.")).

(** A language model that always answers, for examples. *)
Definition always_answers (w : unit) (question model qtype : str) (top_k : Z)
  : unit * (Empty_set + RunExperiment.query_result unit) :=
  (w, inr {| RunExperiment.q_success := true;
             RunExperiment.q_answer := lit "Step 1. Open the portal. Then submit the form.";
             RunExperiment.q_retrieved_docs := [tt; tt];
             RunExperiment.q_error := None |}).

(** ** The local variables of the scorers

    Each definition below is the value of the local variable of the same
    name, as a function of the answer; [evaluate_factual_unfold] and its
    siblings check that the scorers return exactly these values. *)

Module Factual.
Import Re PyNum.
Local Open Scope Q_scope.

Definition answer_lower (answer : str) : str := strip (lower answer).

Definition length_score (answer : str) : Q :=
  if List.length answer <=? 150 then 1.0
  else if List.length answer <=? 300 then 0.8
  else 0.5.

Definition has_number (answer : str) : bool := search re_number answer.
Definition has_url (answer : str) : bool := search re_url (answer_lower answer).
Definition has_specific_name (answer : str) : bool :=
  search re_specific_name answer.

Definition specificity_score (answer : str) : Q :=
  (if has_number answer then 0.4 else 0) +
  (if has_url answer then 0.3 else 0) +
  (if has_specific_name answer then 0.3 else 0).

Definition has_vague (answer : str) : bool :=
  any_present vague_terms (answer_lower answer).

Definition clarity_score (answer : str) : Q :=
  if has_vague answer then 0.0 else 1.0.

Definition total_score (answer : str) : Q :=
  0.3 * length_score answer + 0.4 * specificity_score answer +
  0.3 * clarity_score answer.

End Factual.

Module Procedural.
Import Re PyNum.
Local Open Scope Q_scope.

Definition step_markers (answer : str) : nat :=
  fold_left (fun acc pattern => acc + List.length (findall pattern (lower answer)))%nat
            step_patterns 0%nat.

Definition step_score (answer : str) : Q :=
  min (int_div (step_markers answer) 3.0) 1.0.

Definition connector_count (answer : str) : nat :=
  count_present connectors (lower answer).

Definition logic_score (answer : str) : Q :=
  min (int_div (connector_count answer) 3.0) 1.0.

Definition action_count (answer : str) : nat :=
  count_present action_verbs (lower answer).

Definition action_score (answer : str) : Q :=
  min (int_div (action_count answer) 4.0) 1.0.

Definition total_score (answer : str) : Q :=
  0.4 * step_score answer + 0.3 * logic_score answer + 0.3 * action_score answer.

End Procedural.

Module Comparative.
Import Re PyNum.
Local Open Scope Q_scope.

Definition comparison_count (answer : str) : nat :=
  count_present comparison_words (lower answer).

Definition comparison_score (answer : str) : Q :=
  min (int_div (comparison_count answer) 3.0) 1.0.

Definition dimension_count (answer : str) : nat :=
  count_present dimensions (lower answer).

Definition dimension_score (answer : str) : Q :=
  min (int_div (dimension_count answer) 2.0) 1.0.

Definition has_structure (answer : str) : bool := search re_structure answer.

Definition structure_score (answer : str) : Q :=
  if has_structure answer then 1.0 else 0.5.

Definition length_score (answer : str) : Q :=
  if 200 <=? List.length answer then 1.0
  else if 100 <=? List.length answer then 0.7
  else 0.4.

Definition total_score (answer : str) : Q :=
  0.3 * comparison_score answer + 0.3 * dimension_score answer +
  0.2 * structure_score answer + 0.2 * length_score answer.

End Comparative.

Module Recommendation.
Import Re PyNum.
Local Open Scope Q_scope.

Definition has_recommendation (answer : str) : bool :=
  search re_recommendation (lower answer).

Definition recommendation_score (answer : str) : Q :=
  if has_recommendation answer then 1.0 else 0.0.

Definition reasoning_count (answer : str) : nat :=
  count_present reasoning_words (lower answer).

Definition reasoning_score (answer : str) : Q :=
  min (int_div (reasoning_count answer) 2.0) 1.0.

Definition constraint_count (answer : str) : nat :=
  count_present constraint_words (lower answer).

Definition constraint_score (answer : str) : Q :=
  min (int_div (constraint_count answer) 2.0) 1.0.

Definition option_markers (answer : str) : nat :=
  List.length (findall re_option (lower answer)).

Definition diversity_score (answer : str) : Q :=
  min (int_div (option_markers answer) 2.0) 1.0.

Definition total_score (answer : str) : Q :=
  0.3 * recommendation_score answer + 0.3 * reasoning_score answer +
  0.25 * constraint_score answer + 0.15 * diversity_score answer.

End Recommendation.

(** * The scorers in terms of their local variables *)

Section Unfold.

Import Dict PyNum.

Lemma evaluate_factual_unfold answer :
  evaluate_factual answer =
  [ (lit "category", VStr "factual");
    (lit "length_score", VFloat (round3 (Factual.length_score answer)));
    (lit "specificity_score", VFloat (round3 (Factual.specificity_score answer)));
    (lit "clarity_score", VFloat (round3 (Factual.clarity_score answer)));
    (lit "total_score", VFloat (round3 (Factual.total_score answer)));
    (lit "answer_length", VInt (List.length answer));
    (lit "has_specific_info",
     VBool (Factual.has_number answer || Factual.has_url answer
            || Factual.has_specific_name answer)) ].
Proof. reflexivity. Qed.

Lemma evaluate_procedural_unfold answer :
  evaluate_procedural answer =
  [ (lit "category", VStr "procedural");
    (lit "step_score", VFloat (round3 (Procedural.step_score answer)));
    (lit "logic_score", VFloat (round3 (Procedural.logic_score answer)));
    (lit "action_score", VFloat (round3 (Procedural.action_score answer)));
    (lit "total_score", VFloat (round3 (Procedural.total_score answer)));
    (lit "step_markers_found", VInt (Procedural.step_markers answer));
    (lit "connectors_found", VInt (Procedural.connector_count answer));
    (lit "actions_found", VInt (Procedural.action_count answer)) ].
Proof. reflexivity. Qed.

Lemma evaluate_comparative_unfold answer :
  evaluate_comparative answer =
  [ (lit "category", VStr "comparative");
    (lit "comparison_score", VFloat (round3 (Comparative.comparison_score answer)));
    (lit "dimension_score", VFloat (round3 (Comparative.dimension_score answer)));
    (lit "structure_score", VFloat (round3 (Comparative.structure_score answer)));
    (lit "length_score", VFloat (round3 (Comparative.length_score answer)));
    (lit "total_score", VFloat (round3 (Comparative.total_score answer)));
    (lit "comparison_words_found", VInt (Comparative.comparison_count answer));
    (lit "dimensions_found", VInt (Comparative.dimension_count answer)) ].
Proof. reflexivity. Qed.

Lemma evaluate_recommendation_unfold answer :
  evaluate_recommendation answer =
  [ (lit "category", VStr "recommendation");
    (lit "recommendation_score",
     VFloat (round3 (Recommendation.recommendation_score answer)));
    (lit "reasoning_score", VFloat (round3 (Recommendation.reasoning_score answer)));
    (lit "constraint_score", VFloat (round3 (Recommendation.constraint_score answer)));
    (lit "diversity_score", VFloat (round3 (Recommendation.diversity_score answer)));
    (lit "total_score", VFloat (round3 (Recommendation.total_score answer)));
    (lit "has_recommendation", VBool (Recommendation.has_recommendation answer));
    (lit "reasoning_indicators", VInt (Recommendation.reasoning_count answer));
    (lit "constraint_awareness", VInt (Recommendation.constraint_count answer)) ].
Proof. reflexivity. Qed.

End Unfold.

(** * Facts about strings *)

Section StrFacts.

Implicit Types s t u w : str.

Lemma codepoint_eqb_eq (c d : codepoint) : codepoint_eqb c d = true <-> c = d.
Proof.
  destruct c as [a|], d as [b|]; simpl; try (split; congruence).
  rewrite Ascii.eqb_eq. split; congruence.
Qed.

Lemma codepoint_eqb_refl (c : codepoint) : codepoint_eqb c c = true.
Proof. now apply codepoint_eqb_eq. Qed.

Lemma codepoint_eq_dec (c d : codepoint) : {c = d} + {c <> d}.
Proof. decide equality. apply ascii_dec. Qed.

Lemma str_eqb_eq s t : str_eqb s t = true <-> s = t.
Proof.
  revert t; induction s as [|a s IH]; intros [|b t]; simpl; split;
    try congruence; try discriminate.
  - rewrite andb_true_iff, codepoint_eqb_eq, IH. intros [-> ->]; reflexivity.
  - intros [= -> ->]. rewrite codepoint_eqb_refl. simpl. apply IH. reflexivity.
Qed.

Lemma str_eqb_refl s : str_eqb s s = true.
Proof. apply str_eqb_eq. reflexivity. Qed.

Lemma strip_prefix_spec t s r : strip_prefix t s = Some r <-> s = t ++ r.
Proof.
  revert s; induction t as [|a t IH]; intros s; simpl.
  - split; congruence.
  - destruct s as [|b s]; [split; discriminate|].
    destruct (codepoint_eqb a b) eqn:E.
    + apply codepoint_eqb_eq in E; subst b. rewrite IH. split; congruence.
    + split; [discriminate|]. intros [= -> _].
      rewrite codepoint_eqb_refl in E. discriminate.
Qed.

Lemma startswith_spec s t : startswith s t = true <-> exists r, s = t ++ r.
Proof.
  unfold startswith. destruct (strip_prefix t s) as [r|] eqn:E.
  - apply strip_prefix_spec in E. split; eauto.
  - split; [discriminate|]. intros [r Hr].
    apply strip_prefix_spec in Hr. congruence.
Qed.

Lemma contains_spec t s :
  contains t s = true <-> exists pre post, s = pre ++ t ++ post.
Proof.
  induction s as [|c s IH].
  - simpl. rewrite orb_false_r, startswith_spec. split.
    + intros [r Hr]. exists [], r. exact Hr.
    + intros (pre & post & H). destruct pre; simpl in H; [eauto|discriminate].
  - cbn [contains]. rewrite orb_true_iff, startswith_spec, IH. split.
    + intros [[r Hr]|(pre & post & H)].
      * exists [], r. exact Hr.
      * exists (c :: pre), post. simpl. congruence.
    + intros (pre & post & H). destruct pre as [|c' pre]; simpl in H.
      * left. eauto.
      * right. injection H as _ H. eauto.
Qed.

Lemma contains_app_l t s u : contains t s = true -> contains t (s ++ u) = true.
Proof.
  rewrite !contains_spec. intros (pre & post & ->).
  exists pre, (post ++ u). now rewrite <- !app_assoc.
Qed.

Lemma contains_app_r t s u : contains t u = true -> contains t (s ++ u) = true.
Proof.
  rewrite !contains_spec. intros (pre & post & ->).
  exists (s ++ pre), post. now rewrite <- !app_assoc.
Qed.

Lemma contains_trans t u s :
  contains t u = true -> contains u s = true -> contains t s = true.
Proof.
  rewrite !contains_spec. intros (p1 & q1 & ->) (p2 & q2 & ->).
  exists (p2 ++ p1), (q1 ++ q2). now rewrite <- !app_assoc.
Qed.

Lemma contains_rev t s : contains (rev t) (rev s) = contains t s.
Proof.
  apply eq_true_iff_eq. rewrite !contains_spec. split.
  - intros (pre & post & H). exists (rev post), (rev pre).
    apply (f_equal (@rev codepoint)) in H.
    rewrite rev_involutive, !rev_app_distr, rev_involutive in H.
    now rewrite <- app_assoc in H.
  - intros (pre & post & ->). exists (rev post), (rev pre).
    now rewrite !rev_app_distr, <- app_assoc.
Qed.

Lemma lower_app s u : lower (s ++ u) = lower s ++ lower u.
Proof. apply map_app. Qed.

(** Stripping removes white space only, so a word that neither starts nor
    ends with white space is found in the stripped text exactly when it is
    found in the text. *)
Lemma contains_lstrip a t s :
  is_space a = false -> contains (a :: t) (lstrip s) = contains (a :: t) s.
Proof.
  intros Ha. induction s as [|c s IH]; [reflexivity|].
  cbn [lstrip]. destruct (is_space c) eqn:Ec; [|reflexivity].
  rewrite IH. cbn [contains]. unfold startswith. cbn [strip_prefix].
  destruct (codepoint_eqb a c) eqn:E; [|reflexivity].
  apply codepoint_eqb_eq in E. congruence.
Qed.

Lemma contains_rstrip t z s :
  is_space z = false -> contains (t ++ [z]) (rstrip s) = contains (t ++ [z]) s.
Proof.
  intros Hz. unfold rstrip.
  rewrite <- (contains_rev (t ++ [z]) (rev _)), rev_involutive.
  rewrite rev_app_distr. simpl. rewrite contains_lstrip by assumption.
  rewrite <- (contains_rev (t ++ [z]) s), rev_app_distr. reflexivity.
Qed.

Lemma contains_strip a t z s :
  is_space a = false -> is_space z = false ->
  contains (a :: t ++ [z]) (strip s) = contains (a :: t ++ [z]) s.
Proof.
  intros Ha Hz. unfold strip.
  rewrite (contains_rstrip (a :: t) z _ Hz).
  apply contains_lstrip. assumption.
Qed.

Lemma contains_strip_solid t s :
  solid t = true -> contains t (strip s) = contains t s.
Proof.
  destruct t as [|a t]; [discriminate|]. unfold solid.
  rewrite andb_true_iff, !negb_true_iff. intros [Ha Hz].
  unfold strip.
  rewrite (app_removelast_last a (l := a :: t)) at 1 2 by discriminate.
  rewrite contains_rstrip by assumption.
  rewrite <- (app_removelast_last a (l := a :: t)) by discriminate.
  now apply contains_lstrip.
Qed.

Lemma any_present_strip terms s :
  forallb solid terms = true ->
  any_present terms (strip s) = any_present terms s.
Proof.
  unfold any_present. induction terms as [|t terms IH]; [reflexivity|].
  simpl. rewrite andb_true_iff. intros [Ht Hts].
  now rewrite contains_strip_solid, IH.
Qed.

End StrFacts.

(** * Facts about the matcher *)

Section ReFacts.

Import Re.

Implicit Types (r : regex) (s w rest : str) (p : codepoint -> bool).

Lemma star_ends_spec p s rest :
  In rest (star_ends p s) <-> exists w, s = w ++ rest /\ forallb p w = true.
Proof.
  induction s as [|c s IH]; simpl.
  - split.
    + intros [<-|[]]. exists []. auto.
    + intros (w & H & _). symmetry in H. apply app_eq_nil in H as [_ ->]. now left.
  - destruct (p c) eqn:Ec.
    + rewrite in_app_iff, IH. simpl. split.
      * intros [(w & -> & Hw)|[<-|[]]].
        -- exists (c :: w). simpl. rewrite Ec. auto.
        -- exists []. auto.
      * intros ([|c' w] & H & Hw); simpl in *.
        -- right. left. congruence.
        -- left. injection H as -> ->. apply andb_true_iff in Hw. exists w. tauto.
    + simpl. split.
      * intros [<-|[]]. exists []. auto.
      * intros ([|c' w] & H & Hw); simpl in *; [left; congruence|].
        injection H as -> _. rewrite Ec in Hw. discriminate.
Qed.

(** The matcher lists exactly the ends of the prefixes the pattern denotes. *)
Lemma ends_spec r : forall s rest,
  In rest (ends r s) <-> exists w, s = w ++ rest /\ matches r w.
Proof.
  induction r as [p|t|r1 IH1 r2 IH2|r1 IH1 r2 IH2|p]; intros s rest; simpl.
  - destruct s as [|c s]; [|destruct (p c) eqn:Ec]; simpl; split;
      try solve [intros []].
    + intros (w & H & M). inversion M; subst. discriminate.
    + intros [<-|[]]. exists [c]. split; [reflexivity|now constructor].
    + intros (w & H & M). inversion M; subst. left. simpl in H. congruence.
    + intros (w & H & M). inversion M; subst. simpl in H. congruence.
  - destruct (strip_prefix t s) as [s'|] eqn:E; simpl; split.
    + intros [<-|[]]. apply strip_prefix_spec in E. exists t. split; [assumption|constructor].
    + intros (w & H & M). inversion M; subst. left.
      apply strip_prefix_spec in E. eapply app_inv_head. rewrite <- E. reflexivity.
    + intros [].
    + intros (w & H & M). inversion M; subst.
      assert (strip_prefix w (w ++ rest) = Some rest) by now apply strip_prefix_spec.
      congruence.
  - rewrite in_flat_map. split.
    + intros (mid & H1 & H2). apply IH1 in H1 as (w1 & -> & M1).
      apply IH2 in H2 as (w2 & -> & M2). exists (w1 ++ w2).
      split; [now rewrite app_assoc|now constructor].
    + intros (w & -> & M). inversion M; subst. exists (w2 ++ rest). split.
      * apply IH1. exists w1. split; [now rewrite app_assoc|assumption].
      * apply IH2. eauto.
  - rewrite in_app_iff, IH1, IH2. split.
    + intros [(w & H & M)|(w & H & M)]; exists w; split; auto using matches.
    + intros (w & H & M). inversion M; subst; eauto.
  - rewrite star_ends_spec. split.
    + intros (w & H & Hw). exists w. split; [assumption|now constructor].
    + intros (w & H & M). inversion M; subst. eauto.
Qed.

Lemma match_at_spec r s :
  (exists rest, match_at r s = Some rest) <->
  exists w post, s = w ++ post /\ matches r w.
Proof.
  unfold match_at. split.
  - intros (rest & H). destruct (ends r s) as [|x l] eqn:E; [discriminate|].
    assert (I : In x (ends r s)) by (rewrite E; now left).
    apply ends_spec in I as (w & ? & ?). eauto.
  - intros (w & post & H & M).
    assert (I : In post (ends r s)) by (apply ends_spec; eauto).
    destruct (ends r s) as [|x l]; [destruct I|]. simpl. eauto.
Qed.

Lemma match_at_none r s :
  match_at r s = None -> forall w post, s = w ++ post -> ~ matches r w.
Proof.
  intros E w post H M.
  destruct (proj2 (match_at_spec r s)) as [rest Hr]; [eauto|]. congruence.
Qed.

(** [re.search] succeeds exactly when some substring is a word of the
    pattern. *)
Lemma search_spec r s : search r s = true <-> occurs r s.
Proof.
  unfold occurs. induction s as [|c s IH].
  - simpl. destruct (match_at r []) as [rest|] eqn:E.
    + split; [intros _|reflexivity].
      destruct (proj1 (match_at_spec r [])) as (w & post & H & M); [eauto|].
      exists [], w, post. auto.
    + split; [discriminate|]. intros (pre & w & post & H & M).
      destruct pre; [|discriminate]. simpl in H.
      exfalso. eapply match_at_none; eauto.
  - cbn [search]. destruct (match_at r (c :: s)) as [rest|] eqn:E.
    + split; [intros _|reflexivity].
      destruct (proj1 (match_at_spec r (c :: s))) as (w & post & H & M); [eauto|].
      exists [], w, post. auto.
    + rewrite IH. split.
      * intros (pre & w & post & -> & M). exists (c :: pre), w, post. auto.
      * intros (pre & w & post & H & M). destruct pre as [|c' pre]; simpl in H.
        -- exfalso. eapply match_at_none; eauto.
        -- injection H as _ ->. eauto.
Qed.

Lemma occurs_app_l r s u : occurs r s -> occurs r (s ++ u).
Proof.
  intros (pre & w & post & -> & M). exists pre, w, (post ++ u).
  now rewrite <- !app_assoc.
Qed.

Lemma occurs_app_r r s u : occurs r u -> occurs r (s ++ u).
Proof.
  intros (pre & w & post & -> & M). exists (s ++ pre), w, post.
  now rewrite <- !app_assoc.
Qed.

Lemma matches_Cls p w : matches (Cls p) w <-> exists c, w = [c] /\ p c = true.
Proof.
  split.
  - intros M. inversion M; subst. eauto.
  - intros (c & -> & H). now constructor.
Qed.

Lemma matches_Seq r1 r2 w :
  matches (Seq r1 r2) w <->
  exists w1 w2, w = w1 ++ w2 /\ matches r1 w1 /\ matches r2 w2.
Proof.
  split.
  - intros M. inversion M; subst. eauto.
  - intros (w1 & w2 & -> & M1 & M2). now constructor.
Qed.

Lemma matches_Star p w : matches (Star p) w <-> forallb p w = true.
Proof.
  split.
  - intros M. now inversion M.
  - intros H. now constructor.
Qed.

Lemma matches_Plus p w :
  matches (Plus p) w <-> w <> [] /\ forallb p w = true.
Proof.
  unfold Plus. rewrite matches_Seq. split.
  - intros (w1 & w2 & -> & M1 & M2).
    apply matches_Cls in M1 as (c & -> & Hc). apply matches_Star in M2.
    simpl. rewrite Hc, M2. split; [discriminate|reflexivity].
  - intros [N H]. destruct w as [|c w]; [congruence|].
    simpl in H. apply andb_true_iff in H as [Hc Hw].
    exists [c], w. split; [reflexivity|].
    split; [now apply matches_Cls; eauto|now apply matches_Star].
Qed.

Lemma matches_Alt r1 r2 w :
  matches (Alt r1 r2) w <-> matches r1 w \/ matches r2 w.
Proof.
  split.
  - intros M. inversion M; subst; tauto.
  - intros [M|M]; auto using matches.
Qed.

Lemma matches_Lit t w : matches (Lit t) w <-> w = t.
Proof.
  split.
  - intros M. now inversion M.
  - intros ->. constructor.
Qed.

(** Every string [re.findall] returns is a word of the pattern. *)
Lemma findall_from_sound r s : forall skip,
  Forall (matches r) (findall_from r s skip).
Proof.
  assert (F : forall s rest, match_at r s = Some rest ->
                matches r (firstn (List.length s - List.length rest) s)).
  { intros s0 rest E. unfold match_at in E.
    assert (I : In rest (ends r s0))
      by (destruct (ends r s0); [discriminate|injection E as ->; now left]).
    apply ends_spec in I as (w & -> & M).
    rewrite length_app, Nat.add_sub, firstn_app, Nat.sub_diag, firstn_all.
    simpl. now rewrite app_nil_r. }
  induction s as [|c s IH]; intros skip; simpl.
  - destruct skip; [|constructor].
    destruct (match_at r []) as [rest|] eqn:E; constructor; [|constructor].
    apply F in E. now destruct rest.
  - destruct skip as [|k]; [|apply IH].
    destruct (match_at r (c :: s)) as [rest|] eqn:E; [|apply IH].
    constructor; [apply (F _ _ E)|apply IH].
Qed.

Lemma findall_sound r s : Forall (matches r) (findall r s).
Proof. apply findall_from_sound. Qed.

(** A match found in a text is still found when the text is extended. *)
Lemma search_app_l r s u : search r s = true -> search r (s ++ u) = true.
Proof. rewrite !search_spec. apply occurs_app_l. Qed.

Lemma search_app_r r s u : search r u = true -> search r (s ++ u) = true.
Proof. rewrite !search_spec. apply occurs_app_r. Qed.

Lemma search_Lit t s : search (Lit t) s = contains t s.
Proof.
  apply eq_true_iff_eq. rewrite search_spec, contains_spec. unfold occurs. split.
  - intros (pre & w & post & H & M). inversion M; subst. eauto.
  - intros (pre & post & H). exists pre, t, post. auto using matches.
Qed.

Lemma search_Alt r1 r2 s : search (Alt r1 r2) s = search r1 s || search r2 s.
Proof.
  apply eq_true_iff_eq. rewrite orb_true_iff, !search_spec. unfold occurs. split.
  - intros (pre & w & post & H & M). inversion M; subst; [left|right]; eauto 6.
  - intros [(pre & w & post & H & M)|(pre & w & post & H & M)];
      exists pre, w, post; auto using matches.
Qed.

(** None of the patterns given to [re.findall] matches the empty string. *)
Lemma findall_patterns_not_nullable :
  forallb (fun r => negb (nullable r)) (re_option :: step_patterns) = true.
Proof. reflexivity. Qed.

Lemma matches_nonempty r w : nullable r = false -> matches r w -> w <> [].
Proof.
  intros N M. induction M; simpl in N; try discriminate.
  - destruct t; [discriminate|discriminate].
  - intros E. apply app_eq_nil in E as [E1 E2].
    apply andb_false_iff in N as [N|N]; [now apply IHM1|now apply IHM2].
  - apply orb_false_iff in N as [N _]. auto.
  - apply orb_false_iff in N as [_ N]. auto.
Qed.

Lemma nonempty_ends r s rest :
  nullable r = false -> In rest (ends r s) ->
  List.length rest < List.length s.
Proof.
  intros N I. apply ends_spec in I as (w & -> & M).
  apply (matches_nonempty N) in M. rewrite length_app.
  destruct w; [congruence|simpl; lia].
Qed.

End ReFacts.

(** * Facts about rounding and clamping *)

Section NumFacts.

Import PyNum.
Local Open Scope Q_scope.

Lemma round_half_even_comp x y : x == y -> round_half_even x = round_half_even y.
Proof.
  intros E. unfold round_half_even.
  rewrite (Qfloor_comp _ _ E).
  assert (E' : x - inject_Z (Qfloor y) == y - inject_Z (Qfloor y))
    by (rewrite E; reflexivity).
  rewrite (Qcompare_comp _ _ E' _ _ (Qeq_refl (1 # 2))). reflexivity.
Qed.

(** Rounding goes to the floor or to the integer above it, and which one is
    decided by the side of one half the fractional part lies on. *)
Lemma round_half_even_cases q :
  (round_half_even q = Qfloor q /\ q - inject_Z (Qfloor q) <= 1 # 2) \/
  (round_half_even q = (Qfloor q + 1)%Z /\ 1 # 2 <= q - inject_Z (Qfloor q)).
Proof.
  unfold round_half_even.
  destruct (Qcompare (q - inject_Z (Qfloor q)) (1 # 2)) eqn:E.
  - apply Qeq_alt in E. destruct (Z.even (Qfloor q)); [left|right];
      (split; [reflexivity|rewrite E; apply Qle_refl]).
  - apply Qlt_alt in E. left. split; [reflexivity|now apply Qlt_le_weak].
  - apply Qgt_alt in E. right. split; [reflexivity|now apply Qlt_le_weak].
Qed.

Lemma round_half_even_mono x y :
  x <= y -> (round_half_even x <= round_half_even y)%Z.
Proof.
  intros L. pose proof (Qfloor_resp_le _ _ L) as F.
  destruct (round_half_even_cases x) as [[Ex Hx]|[Ex Hx]];
    destruct (round_half_even_cases y) as [[Ey Hy]|[Ey Hy]];
    try (rewrite Ex, Ey; lia).
  destruct (Z.eq_dec (Qfloor x) (Qfloor y)) as [E|NE].
  - assert (H : x == y).
    { rewrite E in Hx. apply Qle_antisym; [assumption|]. lra. }
    rewrite <- (round_half_even_comp H). lia.
  - rewrite Ex, Ey. lia.
Qed.

Lemma round_half_even_Z z : round_half_even (inject_Z z) = z.
Proof.
  unfold round_half_even. rewrite Qfloor_Z.
  assert (L : inject_Z z - inject_Z z < 1 # 2) by lra.
  rewrite (proj1 (Qlt_alt _ _) L). reflexivity.
Qed.

Lemma Qle_thousandths a b : (a <= b)%Z -> a # 1000 <= b # 1000.
Proof. unfold Qle. simpl. lia. Qed.

Lemma round3_mono x y : x <= y -> round3 x <= round3 y.
Proof.
  intros L. unfold round3. apply Qle_thousandths, round_half_even_mono. nra.
Qed.

(** Rounding keeps a score in the unit interval. *)
Lemma round3_unit x : 0 <= x <= 1 -> 0 <= round3 x <= 1.
Proof.
  intros [L U]. split.
  - apply (Qle_trans _ (round3 0)); [vm_compute; discriminate|apply (round3_mono L)].
  - apply (Qle_trans _ (round3 1)); [apply (round3_mono U)|vm_compute; discriminate].
Qed.

Lemma int_div_nonneg n d : 0 < d -> 0 <= int_div n d.
Proof.
  intros Hd. unfold int_div. apply Qle_shift_div_l; [assumption|].
  rewrite Qmult_0_l. change 0 with (inject_Z 0). rewrite <- Zle_Qle. lia.
Qed.

Lemma min_unit x : 0 <= x -> 0 <= min x 1.0 <= 1.
Proof.
  intros L. unfold min. destruct (Qle_bool x 1.0) eqn:E.
  - apply Qle_bool_iff in E. split; [assumption|lra].
  - split; [vm_compute; discriminate|vm_compute; discriminate].
Qed.

(** A count that reaches the target gives the full score. *)
Lemma min_full x : 1 <= x -> min x 1.0 == 1.
Proof.
  intros L. unfold min. destruct (Qle_bool x 1.0) eqn:E.
  - apply Qle_bool_iff in E. apply Qle_antisym; [lra|exact L].
  - reflexivity.
Qed.

Lemma int_div_ge_1 n d :
  0 < d -> d <= inject_Z (Z.of_nat n) -> 1 <= int_div n d.
Proof.
  intros Hd L. unfold int_div. apply Qle_shift_div_l; [assumption|].
  now rewrite Qmult_1_l.
Qed.

Lemma clamp_unit n d : 0 < d -> 0 <= min (int_div n d) 1.0 <= 1.
Proof. intros Hd. apply min_unit, int_div_nonneg, Hd. Qed.

Lemma round3_1 x : x == 1 -> round3 x == 1.
Proof.
  intros E. unfold round3.
  rewrite (@round_half_even_comp (x * 1000) (inject_Z 1000)) by (rewrite E; reflexivity).
  rewrite round_half_even_Z. reflexivity.
Qed.

End NumFacts.

(** * The dispatcher *)

Section Dispatch.

Lemma get_None {V : Type} (d : list (str * V)) k :
  Dict.get d k = None <-> ~ In k (map fst d).
Proof.
  induction d as [|[k' v] d IH]; simpl.
  - tauto.
  - destruct (str_eqb k' k) eqn:E.
    + apply str_eqb_eq in E. split; [discriminate|]. intros N. tauto.
    + rewrite IH. split; [|tauto]. intros N [H|H]; [|tauto].
      subst k'. rewrite str_eqb_refl in E. discriminate.
Qed.

Lemma evaluate_known answer question_type :
  In question_type categories ->
  (question_type = lit "factual" /\
   evaluate answer question_type = inr (evaluate_factual answer)) \/
  (question_type = lit "procedural" /\
   evaluate answer question_type = inr (evaluate_procedural answer)) \/
  (question_type = lit "comparative" /\
   evaluate answer question_type = inr (evaluate_comparative answer)) \/
  (question_type = lit "recommendation" /\
   evaluate answer question_type = inr (evaluate_recommendation answer)).
Proof.
  intros [<-|[<-|[<-|[<-|[]]]]]; auto 6.
Qed.

Lemma evaluate_unknown answer question_type :
  ~ In question_type categories ->
  evaluate answer question_type =
  inl (ValueError (lit "Unknown question type: " ++ question_type)).
Proof.
  intros N. unfold evaluate.
  rewrite (proj2 (get_None evaluators question_type) N). reflexivity.
Qed.

End Dispatch.

(** * Every sub-score lies in the unit interval *)

Section Bounds.

Import PyNum.
Local Open Scope Q_scope.

Ltac clamp := apply clamp_unit; reflexivity.

Lemma factual_total_unit answer : 0 <= Factual.total_score answer <= 1.
Proof.
  unfold Factual.total_score, Factual.length_score, Factual.specificity_score,
    Factual.clarity_score.
  destruct (List.length answer <=? 150)%nat, (List.length answer <=? 300)%nat,
    (Factual.has_number answer), (Factual.has_url answer),
    (Factual.has_specific_name answer), (Factual.has_vague answer);
    split; vm_compute; discriminate.
Qed.

Lemma procedural_total_unit answer : 0 <= Procedural.total_score answer <= 1.
Proof.
  unfold Procedural.total_score.
  assert (0 <= Procedural.step_score answer <= 1) by clamp.
  assert (0 <= Procedural.logic_score answer <= 1) by clamp.
  assert (0 <= Procedural.action_score answer <= 1) by clamp.
  lra.
Qed.

Lemma comparative_total_unit answer : 0 <= Comparative.total_score answer <= 1.
Proof.
  unfold Comparative.total_score.
  assert (0 <= Comparative.comparison_score answer <= 1) by clamp.
  assert (0 <= Comparative.dimension_score answer <= 1) by clamp.
  assert (1 # 2 <= Comparative.structure_score answer <= 1).
  { unfold Comparative.structure_score.
    destruct (Comparative.has_structure answer); split; vm_compute; discriminate. }
  assert (4 # 10 <= Comparative.length_score answer <= 1).
  { unfold Comparative.length_score.
    destruct (200 <=? List.length answer)%nat, (100 <=? List.length answer)%nat;
      split; vm_compute; discriminate. }
  lra.
Qed.

Lemma recommendation_total_unit answer :
  0 <= Recommendation.total_score answer <= 1.
Proof.
  unfold Recommendation.total_score.
  assert (0 <= Recommendation.recommendation_score answer <= 1).
  { unfold Recommendation.recommendation_score.
    destruct (Recommendation.has_recommendation answer); split;
      vm_compute; discriminate. }
  assert (0 <= Recommendation.reasoning_score answer <= 1) by clamp.
  assert (0 <= Recommendation.constraint_score answer <= 1) by clamp.
  assert (0 <= Recommendation.diversity_score answer <= 1) by clamp.
  lra.
Qed.

End Bounds.

(** * What the detectors find *)

Section Detectors.

Import PyNum.

(** The vague-language test sees the lower-cased answer: stripping it first
    changes nothing, no marker starts or ends with white space. *)
Lemma has_vague_spec answer :
  Factual.has_vague answer = any_present vague_terms (lower answer).
Proof. apply any_present_strip. reflexivity. Qed.

(** The URL test sees the lower-cased answer: neither "http" nor "www."
    starts or ends with white space. *)
Lemma has_url_spec answer :
  Factual.has_url answer =
  contains (lit "http") (lower answer) || contains (lit "www.") (lower answer).
Proof.
  unfold Factual.has_url, Factual.answer_lower, re_url.
  rewrite search_Alt, !search_Lit, !contains_strip_solid by reflexivity.
  reflexivity.
Qed.

Lemma no_url_has_url answer : no_url answer -> Factual.has_url answer = false.
Proof. intros [H W]. now rewrite has_url_spec, H, W. Qed.

Lemma startswith_contains s t : startswith s t = true -> contains t s = true.
Proof.
  rewrite startswith_spec, contains_spec. intros (r & ->). now exists [], r.
Qed.

Lemma well_formed_url_has_url answer url :
  well_formed_url url = true -> Factual.has_url (answer ++ url) = true.
Proof.
  unfold well_formed_url. rewrite andb_true_iff, !orb_true_iff.
  intros [[[H|H]|H] _]; apply startswith_contains in H;
    rewrite has_url_spec, lower_app, orb_true_iff.
  - left. apply contains_app_r.
    apply (contains_trans _ (lit "http://")); [reflexivity|assumption].
  - left. apply contains_app_r.
    apply (contains_trans _ (lit "https://")); [reflexivity|assumption].
  - right. apply contains_app_r. assumption.
Qed.

(** What the three step patterns match, in the words of the specification. *)
Lemma matches_re_numbered m : Re.matches re_numbered m -> numbered_word m.
Proof.
  unfold re_numbered. intros M.
  apply matches_Seq in M as (ds & d & -> & M1 & M2).
  apply matches_Plus in M1 as [N D].
  apply matches_Cls in M2 as (c & -> & Hc). apply codepoint_eqb_eq in Hc. subst c.
  exists ds. auto.
Qed.

Lemma matches_re_step m : Re.matches re_step m -> step_phrase m.
Proof.
  unfold re_step. intros M.
  apply matches_Seq in M as (t & ds & -> & M1 & M2).
  apply matches_Lit in M1. subst t. apply matches_Plus in M2 as [N D].
  exists ds. auto.
Qed.

Lemma matches_re_order_word m : Re.matches re_order_word m -> In m order_words.
Proof.
  unfold re_order_word, order_words. intros M.
  repeat (apply matches_Alt in M as [M|M];
          [apply matches_Lit in M; subst m; simpl; tauto|]).
  apply matches_Lit in M. subst m. simpl. tauto.
Qed.

(** What [re_structure] finds, in the words of the specification. *)
Lemma has_structure_spec answer :
  Comparative.has_structure answer = true <->
  bullet_line answer \/ numbered_marker answer.
Proof.
  unfold Comparative.has_structure, re_structure.
  rewrite search_Alt, orb_true_iff, !search_spec.
  unfold Re.occurs, bullet_line, numbered_marker.
  split.
  - intros [(pre & w & post & -> & M)|(pre & w & post & -> & M)].
    + left. apply matches_Seq in M as (w1 & w23 & -> & M1 & M).
      apply matches_Seq in M as (ws & wb & -> & M2 & M3).
      apply matches_Cls in M1 as (n & -> & Hn).
      apply matches_Star in M2. apply matches_Cls in M3 as (b & -> & Hb).
      apply codepoint_eqb_eq in Hn. subst n.
      exists pre, ws, b, post. split; [now rewrite <- !app_assoc|].
      split; [assumption|]. unfold is_bullet in Hb.
      rewrite !orb_true_iff, !codepoint_eqb_eq in Hb. intuition auto.
    + right. apply matches_Seq in M as (ds & wd & -> & M1 & M2).
      apply matches_Plus in M1 as [N D].
      apply matches_Cls in M2 as (c & -> & Hc). apply codepoint_eqb_eq in Hc. subst c.
      exists pre, ds, post. split; [now rewrite <- !app_assoc|]. auto.
  - intros [(pre & ws & b & post & -> & W & B)|(pre & ds & post & -> & N & D)].
    + left. exists pre, ([Latin "010"] ++ ws ++ [b]), post.
      split; [now rewrite <- !app_assoc|].
      apply matches_Seq. exists [Latin "010"], (ws ++ [b]). split; [reflexivity|].
      split; [apply matches_Cls; eexists; split; [reflexivity|reflexivity]|].
      apply matches_Seq. exists ws, [b]. split; [reflexivity|].
      split; [now apply matches_Star|].
      apply matches_Cls. exists b. split; [reflexivity|].
      destruct B as [-> | [-> | ->]]; reflexivity.
    + right. exists pre, (ds ++ [Latin "."]), post.
      split; [now rewrite <- !app_assoc|].
      apply matches_Seq. exists ds, [Latin "."]. split; [reflexivity|].
      split; [now apply matches_Plus|].
      apply matches_Cls. eexists. split; reflexivity.
Qed.

End Detectors.

(** * The claims *)

Section Claims.

Import PyNum.
Local Open Scope Q_scope.

(** C1.  For every answer, the empty one included, and each of the four
    categories, [evaluate] returns a result whose [total_score] lies in the
    closed interval from 0 to 1. *)
Theorem C1_total_score_in_unit_interval (answer question_type : str) :
  In question_type categories ->
  exists r x,
    evaluate answer question_type = inr r /\
    float_field r "total_score" = Some x /\ 0 <= x <= 1.
Proof.
  intros H.
  destruct (evaluate_known answer H) as [[_ E]|[[_ E]|[[_ E]|[_ E]]]];
    rewrite E; eexists; eexists; (split; [reflexivity|]).
  - rewrite evaluate_factual_unfold. split; [reflexivity|].
    apply round3_unit, factual_total_unit.
  - rewrite evaluate_procedural_unfold. split; [reflexivity|].
    apply round3_unit, procedural_total_unit.
  - rewrite evaluate_comparative_unfold. split; [reflexivity|].
    apply round3_unit, comparative_total_unit.
  - rewrite evaluate_recommendation_unfold. split; [reflexivity|].
    apply round3_unit, recommendation_total_unit.
Qed.

Lemma C1_witness :
  In (lit "comparative") categories /\
  exists r x,
    evaluate (lit "Hall A costs less, however Hall B is nearer.") (lit "comparative")
      = inr r /\
    float_field r "total_score" = Some x /\ 0 <= x <= 1.
Proof.
  split; [vm_compute; tauto|].
  apply C1_total_score_in_unit_interval. vm_compute. tauto.
Defined.

(** C2.  [evaluate] raises its error exactly when the category is none of
    factual, procedural, comparative, recommendation: for such a category
    there is no result at all, only the error naming the category; for one of
    the four there is a result, whatever the answer. *)
Theorem C2_error_iff_unknown_category (answer question_type : str) :
  let known :=
    question_type = lit "factual" \/ question_type = lit "procedural" \/
    question_type = lit "comparative" \/ question_type = lit "recommendation" in
  (evaluate answer question_type =
     inl (ValueError (lit "Unknown question type: " ++ question_type))
   <-> ~ known) /\
  ((exists r, evaluate answer question_type = inr r) <-> known).
Proof.
  intros known.
  assert (K : known <-> In question_type categories).
  { unfold known, categories. simpl. intuition congruence. }
  destruct (in_dec (list_eq_dec codepoint_eq_dec) question_type categories) as [I|N].
  - destruct (evaluate_known answer I) as [[_ E]|[[_ E]|[[_ E]|[_ E]]]];
      rewrite E; (split; [split; [discriminate|tauto]|split; [tauto|eauto]]).
  - rewrite (evaluate_unknown answer N). split; [tauto|].
    split; [intros [r Hr]; discriminate|tauto].
Qed.


Ltac run_score := eexists; split; vm_compute; reflexivity.
Ltac run_scores := unfold scores; repeat (constructor; [run_score|]); constructor.
Ltac run_ints := unfold ints; repeat (constructor; [vm_compute; reflexivity|]); constructor.

(** C3 as stated fails: on the empty answer the factual scorer does not
    report a [total_score] of 0.3 next to the three sub-scores 1.0, 0.0, 1.0. *)
Lemma C3_counterexample :
  ~ (exists r,
       evaluate (lit "") (lit "factual") = inr r /\
       score_is r "length_score" 1.0 /\
       score_is r "specificity_score" 0.0 /\
       score_is r "clarity_score" 1.0 /\
       score_is r "total_score" 0.3).
Proof.
  intros (r & E & _ & _ & _ & (x & F & H)).
  vm_compute in E. injection E as <-.
  vm_compute in F. injection F as <-.
  vm_compute in H. discriminate.
Qed.

(** C3, amended.  On the empty answer the factual scorer reports
    [length_score] 1.0, [specificity_score] 0.0, [clarity_score] 1.0 and
    [total_score] 0.6, which is 0.3 * 1.0 + 0.4 * 0.0 + 0.3 * 1.0. *)
Theorem C3_empty_factual :
  exists r,
    evaluate (lit "") (lit "factual") = inr r /\
    score_is r "length_score" 1.0 /\
    score_is r "specificity_score" 0.0 /\
    score_is r "clarity_score" 1.0 /\
    score_is r "total_score" 0.6 /\
    0.6 == 0.3 * 1.0 + 0.4 * 0.0 + 0.3 * 1.0.
Proof.
  eexists. split; [reflexivity|].
  repeat (split; [run_score|]). reflexivity.
Qed.

(** C4 as stated fails: the sub-scores of the empty answer are not all
    minimal.  Its factual [length_score] is above that of an answer of 301
    characters, and its factual [clarity_score] above that of "maybe". *)
Lemma C4_counterexample :
  exists r0 r1 r2 x0 x1 y0 y2,
    evaluate (lit "") (lit "factual") = inr r0 /\
    evaluate (repeat (Latin "a") 301) (lit "factual") = inr r1 /\
    evaluate (lit "maybe") (lit "factual") = inr r2 /\
    float_field r0 "length_score" = Some x0 /\
    float_field r1 "length_score" = Some x1 /\ x1 < x0 /\
    float_field r0 "clarity_score" = Some y0 /\
    float_field r2 "clarity_score" = Some y2 /\ y2 < y0.
Proof.
  do 7 eexists.
  repeat (split; [vm_compute; reflexivity|]). vm_compute. reflexivity.
Qed.

(** C4, amended.  For every answer and each of the four categories
    [evaluate] returns a result.  For the empty answer every count is zero and
    every sub-score computed from a count or a presence test is 0.0; the
    comparative [structure_score] takes its lower value 0.5 and the
    comparative [length_score] its lowest band 0.4; the factual
    [length_score] takes its highest band 1.0 and the factual
    [clarity_score] is 1.0. *)
Theorem C4_empty_answer :
  (forall answer,
     Forall (fun c => exists r, evaluate answer c = inr r) categories) /\
  (exists r,
     evaluate (lit "") (lit "factual") = inr r /\
     scores r [("length_score", 1.0); ("specificity_score", 0.0);
               ("clarity_score", 1.0); ("total_score", 0.6)] /\
     ints r [("answer_length", 0%nat)] /\
     bool_field r "has_specific_info" = Some false) /\
  (exists r,
     evaluate (lit "") (lit "procedural") = inr r /\
     scores r [("step_score", 0.0); ("logic_score", 0.0);
               ("action_score", 0.0); ("total_score", 0.0)] /\
     ints r [("step_markers_found", 0%nat); ("connectors_found", 0%nat);
             ("actions_found", 0%nat)]) /\
  (exists r,
     evaluate (lit "") (lit "comparative") = inr r /\
     scores r [("comparison_score", 0.0); ("dimension_score", 0.0);
               ("structure_score", 0.5); ("length_score", 0.4);
               ("total_score", 0.18)] /\
     ints r [("comparison_words_found", 0%nat); ("dimensions_found", 0%nat)]) /\
  (exists r,
     evaluate (lit "") (lit "recommendation") = inr r /\
     scores r [("recommendation_score", 0.0); ("reasoning_score", 0.0);
               ("constraint_score", 0.0); ("diversity_score", 0.0);
               ("total_score", 0.0)] /\
     ints r [("reasoning_indicators", 0%nat); ("constraint_awareness", 0%nat)] /\
     bool_field r "has_recommendation" = Some false).
Proof.
  split.
  { intros answer. unfold categories. simpl.
    repeat (constructor; [eexists; reflexivity|]). constructor. }
  repeat split.
  - eexists. split; [reflexivity|].
    split; [run_scores|]. split; [run_ints|reflexivity].
  - eexists. split; [reflexivity|]. split; [run_scores|run_ints].
  - eexists. split; [reflexivity|]. split; [run_scores|run_ints].
  - eexists. split; [reflexivity|].
    split; [run_scores|]. split; [run_ints|reflexivity].
Qed.

(** C5 as stated fails: appending a well-formed URL to an answer without one
    can lower [total_score], when the URL contains a vague-language marker
    and when it carries a short answer past 300 characters. *)
Lemma C5_counterexample :
  (exists r r' t t',
     no_url (lit "See ") /\
     well_formed_url (lit "https://example.com/maybe") = true /\
     evaluate (lit "See ") (lit "factual") = inr r /\
     evaluate (lit "See " ++ lit "https://example.com/maybe") (lit "factual") = inr r' /\
     float_field r "total_score" = Some t /\
     float_field r' "total_score" = Some t' /\ t' < t) /\
  (exists r r' t t',
     no_url (lit "See ") /\
     well_formed_url (lit "http://example.com/" ++ repeat (Latin "a") 300) = true /\
     evaluate (lit "See ") (lit "factual") = inr r /\
     evaluate (lit "See " ++ lit "http://example.com/" ++ repeat (Latin "a") 300)
              (lit "factual") = inr r' /\
     float_field r "total_score" = Some t /\
     float_field r' "total_score" = Some t' /\ t' < t).
Proof.
  split; do 4 eexists;
    (split; [split; vm_compute; reflexivity|]);
    repeat (split; [vm_compute; reflexivity|]); vm_compute; reflexivity.
Qed.

(** C5, amended.  For the factual category, appending a well-formed URL to
    an answer whose lower-cased text contains neither "http" nor "www."
    strictly increases [specificity_score]; [total_score] does not decrease
    provided the extended answer has a vague-language marker only if the
    answer had one, and the URL does not carry an answer of at most 150
    characters past 300. *)
Theorem C5_url_raises_specificity (answer url : str) :
  no_url answer ->
  well_formed_url url = true ->
  exists r r' x x' t t',
    evaluate answer (lit "factual") = inr r /\
    evaluate (answer ++ url) (lit "factual") = inr r' /\
    float_field r "specificity_score" = Some x /\
    float_field r' "specificity_score" = Some x' /\
    x < x' /\
    float_field r "total_score" = Some t /\
    float_field r' "total_score" = Some t' /\
    (any_present vague_terms (lower (answer ++ url)) =
       any_present vague_terms (lower answer) ->
     (150 < List.length answer \/ List.length (answer ++ url) <= 300)%nat ->
     t <= t').
Proof.
  intros NU WF.
  pose proof (no_url_has_url NU) as U0.
  pose proof (@well_formed_url_has_url answer url WF) as U1.
  assert (N : Factual.has_number answer = true ->
              Factual.has_number (answer ++ url) = true)
    by apply search_app_l.
  assert (S : Factual.has_specific_name answer = true ->
              Factual.has_specific_name (answer ++ url) = true)
    by apply search_app_l.
  do 6 eexists. split; [reflexivity|]. split; [reflexivity|].
  rewrite !evaluate_factual_unfold.
  split; [reflexivity|]. split; [reflexivity|]. split.
  { unfold Factual.specificity_score. rewrite U0, U1.
    destruct (Factual.has_number answer), (Factual.has_number (answer ++ url));
      try (specialize (N eq_refl); discriminate);
      destruct (Factual.has_specific_name answer),
        (Factual.has_specific_name (answer ++ url));
      try (specialize (S eq_refl); discriminate);
      vm_compute; reflexivity. }
  split; [reflexivity|]. split; [reflexivity|].
  intros V L. apply round3_mono.
  unfold Factual.total_score, Factual.clarity_score, Factual.specificity_score,
    Factual.length_score.
  rewrite !has_vague_spec, V, U0, U1.
  rewrite length_app in *.
  destruct (Nat.leb_spec (List.length answer) 150),
    (Nat.leb_spec (List.length answer) 300),
    (Nat.leb_spec (List.length answer + List.length url) 150),
    (Nat.leb_spec (List.length answer + List.length url) 300);
    try lia;
    destruct (any_present vague_terms (lower answer));
    destruct (Factual.has_number answer), (Factual.has_number (answer ++ url));
    try (specialize (N eq_refl); discriminate);
    destruct (Factual.has_specific_name answer),
      (Factual.has_specific_name (answer ++ url));
    try (specialize (S eq_refl); discriminate);
    vm_compute; discriminate.
Qed.

Lemma C5_witness :
  no_url (lit "The form is at ") /\
  well_formed_url (lit "https://www.nus.edu.sg/forms") = true /\
  exists r r' x x' t t',
    evaluate (lit "The form is at ") (lit "factual") = inr r /\
    evaluate (lit "The form is at " ++ lit "https://www.nus.edu.sg/forms")
             (lit "factual") = inr r' /\
    float_field r "specificity_score" = Some x /\
    float_field r' "specificity_score" = Some x' /\
    x < x' /\
    float_field r "total_score" = Some t /\
    float_field r' "total_score" = Some t' /\
    (any_present vague_terms
       (lower (lit "The form is at " ++ lit "https://www.nus.edu.sg/forms")) =
       any_present vague_terms (lower (lit "The form is at ")) ->
     (150 < List.length (lit "The form is at ") \/
      List.length (lit "The form is at " ++ lit "https://www.nus.edu.sg/forms") <= 300)%nat ->
     t <= t').
Proof.
  split; [split; vm_compute; reflexivity|].
  split; [vm_compute; reflexivity|].
  apply C5_url_raises_specificity; [split|]; vm_compute; reflexivity.
Defined.

(** C6.  For every answer the factual [clarity_score] is 0.0 when the
    lower-cased answer contains one of maybe, might, possibly, unclear,
    i don't know, and 1.0 otherwise, whatever else the answer contains; on
    "maybe it is unclear" it is 0.0. *)
Theorem C6_clarity_is_a_binary_gate :
  (forall answer : str,
     exists r,
       evaluate answer (lit "factual") = inr r /\
       score_is r "clarity_score"
         (if existsb (fun marker => contains marker (lower answer))
               [lit "maybe"; lit "might"; lit "possibly"; lit "unclear";
                lit "i don't know"]
          then 0.0 else 1.0)) /\
  (exists r,
     evaluate (lit "maybe it is unclear") (lit "factual") = inr r /\
     score_is r "clarity_score" 0.0).
Proof.
  split.
  - intros answer. eexists. split; [reflexivity|].
    rewrite evaluate_factual_unfold. eexists. split; [reflexivity|].
    unfold Factual.clarity_score. rewrite has_vague_spec.
    unfold any_present, vague_terms.
    destruct (existsb _ _); vm_compute; reflexivity.
  - eexists. split; [reflexivity|run_score].
Qed.

(** C7.  For every answer the number of step markers is the sum of the
    numbers of matches, in the lower-cased answer, of three patterns: the
    first matches digits followed by a period, the second "step " followed
    by digits, the third each occurrence of first, second, third, then, next
    or finally.  [step_score] is the minimum of a third of that number and
    1.0, and the result reports the number and the score rounded to three
    decimals.  The three-step example has at least three markers and a
    [step_score] of 1.0. *)
Theorem C7_step_markers_and_step_score :
  (forall answer : str,
     Procedural.step_markers answer =
       (List.length (Re.findall re_numbered (lower answer)) +
        List.length (Re.findall re_step (lower answer)) +
        List.length (Re.findall re_order_word (lower answer)))%nat /\
     Forall numbered_word (Re.findall re_numbered (lower answer)) /\
     Forall step_phrase (Re.findall re_step (lower answer)) /\
     Forall (fun m => In m order_words) (Re.findall re_order_word (lower answer)) /\
     Procedural.step_score answer =
       PyNum.min (int_div (Procedural.step_markers answer) 3.0) 1.0 /\
     exists r,
       evaluate answer (lit "procedural") = inr r /\
       int_field r "step_markers_found" = Some (Procedural.step_markers answer) /\
       float_field r "step_score" = Some (round3 (Procedural.step_score answer))) /\
  (exists r n,
     evaluate
       (lit "Step 1. Go to Central Library. Step 2. Fill the form. Step 3. Submit it.")
       (lit "procedural") = inr r /\
     int_field r "step_markers_found" = Some n /\ (3 <= n)%nat /\
     score_is r "step_score" 1.0).
Proof.
  split.
  - intros answer. split; [reflexivity|].
    split; [eapply Forall_impl; [apply matches_re_numbered|apply findall_sound]|].
    split; [eapply Forall_impl; [apply matches_re_step|apply findall_sound]|].
    split; [eapply Forall_impl; [apply matches_re_order_word|apply findall_sound]|].
    split; [reflexivity|].
    eexists. split; [reflexivity|].
    rewrite evaluate_procedural_unfold. split; reflexivity.
  - exists (evaluate_procedural
              (lit "Step 1. Go to Central Library. Step 2. Fill the form. Step 3. Submit it.")),
           6%nat.
    split; [reflexivity|]. split; [vm_compute; reflexivity|].
    split; [lia|run_score].
Qed.

(** C8.  For every answer the comparative [structure_score] is 1.0 when the
    answer contains a newline followed by optional white space and a bullet
    character, or a numbered-list marker anywhere, and 0.5 otherwise; it is
    never zero. *)
Theorem C8_structure_score_is_1_or_one_half (answer : str) :
  exists r x,
    evaluate answer (lit "comparative") = inr r /\
    float_field r "structure_score" = Some x /\
    (bullet_line answer \/ numbered_marker answer -> x == 1.0) /\
    (~ (bullet_line answer \/ numbered_marker answer) -> x == 0.5) /\
    ~ x == 0.
Proof.
  eexists. eexists. split; [reflexivity|].
  rewrite evaluate_comparative_unfold. split; [reflexivity|].
  unfold Comparative.structure_score.
  pose proof (has_structure_spec answer) as S.
  destruct (Comparative.has_structure answer).
  - split; [intros _; vm_compute; reflexivity|].
    split; [intros N; exfalso; apply N, S; reflexivity|vm_compute; discriminate].
  - split; [intros H; apply S in H; discriminate|].
    split; [intros _; vm_compute; reflexivity|vm_compute; discriminate].
Qed.

(** C9.  Word lists are tested by substring containment: an answer whose
    lower-cased text contains "has" also contains "as", both are reasoning
    words, so the recommendation scorer counts at least two reasoning words
    and reports a [reasoning_score] of 1.0. *)
Theorem C9_has_counts_as_two (answer : str) :
  contains (lit "has") (lower answer) = true ->
  In (lit "as") (filter (fun w => contains w (lower answer)) reasoning_words) /\
  In (lit "has") (filter (fun w => contains w (lower answer)) reasoning_words) /\
  exists r n,
    evaluate answer (lit "recommendation") = inr r /\
    int_field r "reasoning_indicators" = Some n /\ (2 <= n)%nat /\
    score_is r "reasoning_score" 1.0.
Proof.
  intros Hhas.
  assert (Has : contains (lit "as") (lower answer) = true)
    by (apply (contains_trans (lit "as") (lit "has")); [reflexivity|assumption]).
  assert (Hn : (2 <= Recommendation.reasoning_count answer)%nat).
  { unfold Recommendation.reasoning_count, count_present, reasoning_words.
    cbn [filter]. rewrite Has, Hhas.
    repeat match goal with
           | |- context [if ?b then _ else _] => destruct b
           end; simpl; lia. }
  split; [apply filter_In; split; [simpl; tauto|assumption]|].
  split; [apply filter_In; split; [simpl; tauto|assumption]|].
  eexists. eexists. split; [reflexivity|].
  rewrite evaluate_recommendation_unfold.
  split; [reflexivity|]. split; [exact Hn|].
  eexists. split; [reflexivity|].
  apply (Qeq_trans _ 1); [|reflexivity].
  apply round3_1. unfold Recommendation.reasoning_score.
  apply min_full, int_div_ge_1; [reflexivity|].
  apply (Qle_trans _ (inject_Z 2)); [vm_compute; discriminate|].
  rewrite <- Zle_Qle. lia.
Qed.

Lemma C9_witness :
  contains (lit "has") (lower (lit "Hall B has better facility")) = true /\
  exists r n,
    evaluate (lit "Hall B has better facility") (lit "recommendation") = inr r /\
    int_field r "reasoning_indicators" = Some n /\ (2 <= n)%nat /\
    score_is r "reasoning_score" 1.0.
Proof.
  split; [reflexivity|].
  apply (C9_has_counts_as_two (lit "Hall B has better facility")). reflexivity.
Defined.

(** C10.  In every result [total_score] is the weighted sum of the
    sub-scores before they are rounded, rounded once; so it can differ from
    the weighted sum of the sub-scores the same result reports.  The answer
    "1." has one step marker, reports a [step_score] of 0.333 and a
    [total_score] of 0.133, which is not 0.4 * 0.333. *)
Theorem C10_total_is_rounded_after_summation :
  (forall answer : str,
     float_field (evaluate_factual answer) "total_score" =
       Some (round3 (0.3 * Factual.length_score answer
                     + 0.4 * Factual.specificity_score answer
                     + 0.3 * Factual.clarity_score answer)) /\
     float_field (evaluate_procedural answer) "total_score" =
       Some (round3 (0.4 * Procedural.step_score answer
                     + 0.3 * Procedural.logic_score answer
                     + 0.3 * Procedural.action_score answer)) /\
     float_field (evaluate_comparative answer) "total_score" =
       Some (round3 (0.3 * Comparative.comparison_score answer
                     + 0.3 * Comparative.dimension_score answer
                     + 0.2 * Comparative.structure_score answer
                     + 0.2 * Comparative.length_score answer)) /\
     float_field (evaluate_recommendation answer) "total_score" =
       Some (round3 (0.3 * Recommendation.recommendation_score answer
                     + 0.3 * Recommendation.reasoning_score answer
                     + 0.25 * Recommendation.constraint_score answer
                     + 0.15 * Recommendation.diversity_score answer))) /\
  (exists r step logic action total,
     evaluate (lit "1.") (lit "procedural") = inr r /\
     int_field r "step_markers_found" = Some 1%nat /\
     float_field r "step_score" = Some step /\ step == 0.333 /\
     float_field r "logic_score" = Some logic /\
     float_field r "action_score" = Some action /\
     float_field r "total_score" = Some total /\ total == 0.133 /\
     ~ total == 0.4 * step + 0.3 * logic + 0.3 * action).
Proof.
  split.
  - intros answer. repeat split; reflexivity.
  - do 5 eexists.
    repeat (split; [vm_compute; reflexivity|]).
    vm_compute. discriminate.
Qed.

End Claims.

(** * Further properties of the evaluator *)

Section CaseFacts.

Import Re.

Ltac by_cases c :=
  destruct c as [a|]; [destruct a as [[] [] [] [] [] [] [] []]|]; reflexivity.

Lemma lower_char_idem c : lower_char (lower_char c) = lower_char c.
Proof. by_cases c. Qed.

Lemma is_space_lower c : is_space (lower_char c) = is_space c.
Proof. by_cases c. Qed.

Lemma is_digit_lower c : is_digit (lower_char c) = is_digit c.
Proof. by_cases c. Qed.

Lemma is_bullet_lower c : is_bullet (lower_char c) = is_bullet c.
Proof. by_cases c. Qed.

Lemma newline_lower c :
  codepoint_eqb "010" (lower_char c) = codepoint_eqb "010" c.
Proof. by_cases c. Qed.

Lemma period_lower c : codepoint_eqb "." (lower_char c) = codepoint_eqb "." c.
Proof. by_cases c. Qed.

Lemma lower_idem s : lower (lower s) = lower s.
Proof.
  unfold lower. rewrite map_map. apply map_ext. intros c. apply lower_char_idem.
Qed.

Lemma lower_length s : List.length (lower s) = List.length s.
Proof. apply length_map. Qed.

Lemma star_ends_map f p s :
  (forall c, p (f c) = p c) ->
  star_ends p (map f s) = map (map f) (star_ends p s).
Proof.
  intros H. induction s as [|c s IH]; [reflexivity|].
  simpl. rewrite H. destruct (p c); [|reflexivity].
  now rewrite IH, map_app.
Qed.

(** A pattern whose classes cannot tell [c] from [f c] matches [map f s]
    the way it matches [s]. *)
Lemma ends_map f r :
  invariant_under f r -> forall s, ends r (map f s) = map (map f) (ends r s).
Proof.
  induction r as [p|t|r1 IH1 r2 IH2|r1 IH1 r2 IH2|p]; simpl; intros H s.
  - destruct s as [|c s]; [reflexivity|]. simpl. rewrite H.
    destruct (p c); reflexivity.
  - destruct H.
  - destruct H as [H1 H2]. rewrite (IH1 H1).
    induction (ends r1 s) as [|x l IHl]; [reflexivity|].
    simpl. now rewrite map_app, (IH2 H2), IHl.
  - destruct H as [H1 H2]. now rewrite map_app, (IH1 H1), (IH2 H2).
  - now apply star_ends_map.
Qed.

Lemma match_at_map f r s :
  invariant_under f r ->
  match_at r (map f s) = option_map (map f) (match_at r s).
Proof.
  intros H. unfold match_at. rewrite (ends_map f r H).
  destruct (ends r s); reflexivity.
Qed.

Lemma search_map f r s : invariant_under f r -> search r (map f s) = search r s.
Proof.
  intros H. induction s as [|c s IH].
  - reflexivity.
  - change (map f (c :: s)) with (f c :: map f s). cbn [search].
    change (f c :: map f s) with (map f (c :: s)).
    rewrite (match_at_map f r (c :: s) H).
    destruct (match_at r (c :: s)); [reflexivity|exact IH].
Qed.

Lemma has_structure_lower answer :
  Comparative.has_structure (lower answer) = Comparative.has_structure answer.
Proof.
  apply search_map. unfold re_structure, Plus, Chr. cbn [invariant_under].
  repeat split; intros c;
    auto using newline_lower, is_space_lower, is_bullet_lower, is_digit_lower,
               period_lower.
Qed.

End CaseFacts.

Section MonotoneFacts.

Import PyNum.
Local Open Scope Q_scope.

Lemma filter_length_le {A : Type} (f g : A -> bool) (l : list A) :
  (forall x, f x = true -> g x = true) ->
  (List.length (filter f l) <= List.length (filter g l))%nat.
Proof.
  intros H. induction l as [|x l IH]; [simpl; lia|].
  simpl. destruct (f x) eqn:E.
  - rewrite (H _ E). simpl. lia.
  - destruct (g x); simpl; lia.
Qed.

Lemma contains_embed t pre s post :
  contains t s = true -> contains t (pre ++ s ++ post) = true.
Proof. intros H. apply contains_app_r, contains_app_l, H. Qed.

Lemma lower_embed pre s post :
  lower (pre ++ s ++ post) = lower pre ++ lower s ++ lower post.
Proof. now rewrite !lower_app. Qed.

(** Text around an answer can only add to the words found in it. *)
Lemma count_present_embed words pre s post :
  (count_present words (lower s)
   <= count_present words (lower (pre ++ s ++ post)))%nat.
Proof.
  unfold count_present. apply filter_length_le. intros w H.
  rewrite lower_embed. now apply contains_embed.
Qed.

Lemma min_mono x y : x <= y -> min x 1.0 <= min y 1.0.
Proof.
  intros L. unfold min.
  destruct (Qle_bool x 1.0) eqn:Ex, (Qle_bool y 1.0) eqn:Ey;
    try apply Qle_bool_iff in Ex; try apply Qle_bool_iff in Ey.
  - exact L.
  - exact Ex.
  - exfalso. assert (Qle_bool x 1.0 = true) by (apply Qle_bool_iff; lra).
    congruence.
  - apply Qle_refl.
Qed.

Lemma int_div_mono n m d : 0 < d -> (n <= m)%nat -> int_div n d <= int_div m d.
Proof.
  intros Hd L. unfold int_div, Qdiv. apply Qmult_le_compat_r.
  - rewrite <- Zle_Qle. lia.
  - apply Qlt_le_weak, Qinv_lt_0_compat, Hd.
Qed.

Lemma clamp_mono n m d :
  0 < d -> (n <= m)%nat ->
  round3 (min (int_div n d) 1.0) <= round3 (min (int_div m d) 1.0).
Proof. intros Hd L. now apply round3_mono, min_mono, int_div_mono. Qed.

End MonotoneFacts.

Section SubScores.

Import PyNum.
Local Open Scope Q_scope.

Ltac band := split; vm_compute; discriminate.
Ltac clamp := apply clamp_unit; reflexivity.
Ltac run_score := eexists; split; vm_compute; reflexivity.

Lemma factual_length_unit answer : 0 <= Factual.length_score answer <= 1.
Proof.
  unfold Factual.length_score.
  destruct (List.length answer <=? 150)%nat, (List.length answer <=? 300)%nat; band.
Qed.

Lemma factual_specificity_unit answer :
  0 <= Factual.specificity_score answer <= 1.
Proof.
  unfold Factual.specificity_score.
  destruct (Factual.has_number answer), (Factual.has_url answer),
    (Factual.has_specific_name answer); band.
Qed.

Lemma factual_clarity_unit answer : 0 <= Factual.clarity_score answer <= 1.
Proof. unfold Factual.clarity_score. destruct (Factual.has_vague answer); band. Qed.

Lemma comparative_structure_unit answer :
  0 <= Comparative.structure_score answer <= 1.
Proof.
  unfold Comparative.structure_score.
  destruct (Comparative.has_structure answer); band.
Qed.

Lemma comparative_length_unit answer : 0 <= Comparative.length_score answer <= 1.
Proof.
  unfold Comparative.length_score.
  destruct (200 <=? List.length answer)%nat, (100 <=? List.length answer)%nat; band.
Qed.

Lemma recommendation_gate_unit answer :
  0 <= Recommendation.recommendation_score answer <= 1.
Proof.
  unfold Recommendation.recommendation_score.
  destruct (Recommendation.has_recommendation answer); band.
Qed.

Ltac field_cases HI :=
  cbn [In] in HI;
  repeat (destruct HI as [HI|HI];
          [try discriminate HI; injection HI as _ <-; apply round3_unit|]);
  [..|destruct HI].

(** X1.  Every float a result holds, each sub-score as well as the total,
    lies between 0 and 1, for every answer and each of the four categories. *)
Theorem X1_every_score_in_unit_interval (answer question_type : str) :
  In question_type categories ->
  exists r,
    evaluate answer question_type = inr r /\
    forall k x, In (k, Dict.VFloat x) r -> 0 <= x <= 1.
Proof.
  intros H.
  destruct (evaluate_known answer H) as [[_ E]|[[_ E]|[[_ E]|[_ E]]]];
    rewrite E; eexists; (split; [reflexivity|]); intros k x HI.
  - rewrite evaluate_factual_unfold in HI. field_cases HI.
    + apply factual_length_unit.
    + apply factual_specificity_unit.
    + apply factual_clarity_unit.
    + apply factual_total_unit.
  - rewrite evaluate_procedural_unfold in HI. field_cases HI;
      try apply procedural_total_unit; clamp.
  - rewrite evaluate_comparative_unfold in HI. field_cases HI.
    + clamp.
    + clamp.
    + apply comparative_structure_unit.
    + apply comparative_length_unit.
    + apply comparative_total_unit.
  - rewrite evaluate_recommendation_unfold in HI. field_cases HI.
    + apply recommendation_gate_unit.
    + clamp.
    + clamp.
    + clamp.
    + apply recommendation_total_unit.
Qed.

Lemma X1_witness :
  In (lit "recommendation") categories /\
  exists r,
    evaluate (lit "You should try Hall B because it is near.") (lit "recommendation")
      = inr r /\
    forall k x, In (k, Dict.VFloat x) r -> 0 <= x <= 1.
Proof.
  split; [vm_compute; tauto|].
  apply X1_every_score_in_unit_interval. vm_compute. tauto.
Defined.

(** X2.  Whenever [evaluate] returns a result, the result's [category] is
    the question type that was asked for: each key of the dispatch table is
    wired to its own scorer. *)
Theorem X2_result_carries_the_requested_category
  (answer question_type : str) (r : result) :
  evaluate answer question_type = inr r ->
  Dict.get r (lit "category") = Some (Dict.VStr question_type).
Proof.
  intros E.
  destruct (in_dec (list_eq_dec codepoint_eq_dec) question_type categories) as [I|N].
  - destruct (evaluate_known answer I) as [[-> E']|[[-> E']|[[-> E']|[-> E']]]];
      rewrite E' in E; injection E as <-; reflexivity.
  - rewrite (evaluate_unknown answer N) in E. discriminate.
Qed.

Lemma X2_witness :
  evaluate (lit "Step 1. Open the portal.") (lit "procedural")
    = inr (evaluate_procedural (lit "Step 1. Open the portal.")) /\
  Dict.get (evaluate_procedural (lit "Step 1. Open the portal.")) (lit "category")
    = Some (Dict.VStr (lit "procedural")).
Proof.
  split; [reflexivity|].
  apply (@X2_result_carries_the_requested_category
           (lit "Step 1. Open the portal.") (lit "procedural")).
  reflexivity.
Defined.

(** X3.  In a factual result [has_specific_info] is true exactly when
    [specificity_score] is positive, and [answer_length] is the length of the
    answer. *)
Theorem X3_specific_info_iff_positive_specificity (answer : str) :
  exists b x,
    bool_field (evaluate_factual answer) "has_specific_info" = Some b /\
    float_field (evaluate_factual answer) "specificity_score" = Some x /\
    (b = true <-> 0 < x) /\
    int_field (evaluate_factual answer) "answer_length" = Some (List.length answer).
Proof.
  do 2 eexists. rewrite evaluate_factual_unfold.
  split; [reflexivity|]. split; [reflexivity|]. split; [|reflexivity].
  unfold Factual.specificity_score.
  destruct (Factual.has_number answer), (Factual.has_url answer),
    (Factual.has_specific_name answer); simpl;
    (split; intros H;
     first [discriminate H | reflexivity | vm_compute; reflexivity
           | vm_compute in H; discriminate H]).
Qed.

(** X4.  A factual total is never below 0.15 and a comparative total never
    below 0.18, whatever the answer; both bounds are reached. *)
Theorem X4_factual_and_comparative_totals_have_a_floor :
  (forall answer : str,
     exists x y,
       float_field (evaluate_factual answer) "total_score" = Some x /\
       0.15 <= x /\
       float_field (evaluate_comparative answer) "total_score" = Some y /\
       0.18 <= y) /\
  score_is (evaluate_factual (lit "maybe" ++ repeat (Latin " ") 300))
           "total_score" 0.15 /\
  score_is (evaluate_comparative (lit "")) "total_score" 0.18.
Proof.
  split; [|split; run_score].
  intros answer. do 2 eexists.
  rewrite evaluate_factual_unfold, evaluate_comparative_unfold.
  split; [reflexivity|]. split; [|split; [reflexivity|]].
  - apply (Qle_trans _ (round3 0.15)); [vm_compute; discriminate|].
    apply round3_mono.
    pose proof (factual_specificity_unit answer).
    pose proof (factual_clarity_unit answer).
    assert (5 # 10 <= Factual.length_score answer).
    { unfold Factual.length_score.
      destruct (List.length answer <=? 150)%nat, (List.length answer <=? 300)%nat;
        vm_compute; discriminate. }
    unfold Factual.total_score. lra.
  - apply (Qle_trans _ (round3 0.18)); [vm_compute; discriminate|].
    apply round3_mono.
    assert (0 <= Comparative.comparison_score answer <= 1) by clamp.
    assert (0 <= Comparative.dimension_score answer <= 1) by clamp.
    assert (5 # 10 <= Comparative.structure_score answer).
    { unfold Comparative.structure_score.
      destruct (Comparative.has_structure answer); vm_compute; discriminate. }
    assert (4 # 10 <= Comparative.length_score answer).
    { unfold Comparative.length_score.
      destruct (200 <=? List.length answer)%nat, (100 <=? List.length answer)%nat;
        vm_compute; discriminate. }
    unfold Comparative.total_score. lra.
Qed.

End SubScores.

Section CaseAndContext.

Import PyNum.
Local Open Scope Q_scope.


Lemma search_embed r pre s post :
  Re.search r s = true -> Re.search r (pre ++ s ++ post) = true.
Proof. intros H. apply search_app_r, search_app_l, H. Qed.

(** X6.  Text put before or after an answer never lowers a sub-score that
    counts words of a list or tests for a phrase: the procedural
    [logic_score] and [action_score], the comparative [comparison_score] and
    [dimension_score], the recommendation [recommendation_score],
    [reasoning_score] and [constraint_score]. *)
Theorem X6_keyword_scores_grow_with_context (before answer after : str) :
  Forall
    (fun tk : string * string =>
       exists r r' x y,
         evaluate answer (lit (fst tk)) = inr r /\
         evaluate (before ++ answer ++ after) (lit (fst tk)) = inr r' /\
         float_field r (snd tk) = Some x /\
         float_field r' (snd tk) = Some y /\
         x <= y)
    [ ("procedural", "logic_score"); ("procedural", "action_score");
      ("comparative", "comparison_score"); ("comparative", "dimension_score");
      ("recommendation", "recommendation_score");
      ("recommendation", "reasoning_score");
      ("recommendation", "constraint_score") ].
Proof.
  repeat (constructor;
          [do 4 eexists; split; [reflexivity|]; split; [reflexivity|];
           cbn [fst snd];
           rewrite ?evaluate_procedural_unfold, ?evaluate_comparative_unfold,
             ?evaluate_recommendation_unfold;
           split; [reflexivity|]; split; [reflexivity|]|]);
    [..|constructor];
    try (apply clamp_mono; [reflexivity|apply count_present_embed]).
  apply round3_mono. unfold Recommendation.recommendation_score.
  destruct (Recommendation.has_recommendation answer) eqn:E.
  - unfold Recommendation.has_recommendation in *.
    rewrite lower_embed, (search_embed _ _ _ _ E). apply Qle_refl.
  - destruct (Recommendation.has_recommendation (before ++ answer ++ after));
      vm_compute; discriminate.
Qed.

End CaseAndContext.

(** * chunk_text *)

Section SplitJoin.

Import Builtins.

Implicit Types (s w acc : str) (ws : list str).

Lemma nospace_app w1 w2 :
  nospace (w1 ++ w2) = nospace w1 && nospace w2.
Proof. apply forallb_app. Qed.

Lemma split_from_word w : forall s acc,
  nospace w = true -> split_from (w ++ s) acc = split_from s (acc ++ w).
Proof.
  induction w as [|c w IH]; intros s acc H.
  - now rewrite app_nil_r.
  - simpl in H. apply andb_true_iff in H as [Hc Hw].
    apply negb_true_iff in Hc. simpl. rewrite Hc, (IH _ _ Hw).
    now rewrite <- app_assoc.
Qed.

(** [split] returns words. *)
Lemma split_from_words s : forall acc,
  nospace acc = true -> Forall is_word (split_from s acc).
Proof.
  induction s as [|c s IH]; intros acc H; simpl.
  - destruct acc; [constructor|]. constructor; [|constructor].
    split; [discriminate|assumption].
  - destruct (is_space c) eqn:E.
    + destruct acc; [now apply IH|].
      constructor; [split; [discriminate|assumption]|now apply IH].
    + apply IH. rewrite nospace_app, H. simpl. now rewrite E.
Qed.

Lemma split_words s : Forall is_word (split s).
Proof. now apply split_from_words. Qed.

Lemma split_from_space s c x :
  split_from (lit " " ++ s) (c :: x) = (c :: x) :: split_from s [].
Proof. reflexivity. Qed.

(** Joining words with a space and splitting again gives the words back. *)
Lemma split_join ws : Forall is_word ws -> split (join (lit " ") ws) = ws.
Proof.
  unfold split. induction 1 as [|x l [Hx Hn] Hl IH]; [reflexivity|].
  destruct l as [|y l].
  - change (join (lit " ") [x]) with x.
    rewrite <- (app_nil_r x) at 1. rewrite (split_from_word x [] [] Hn).
    simpl. destruct x; [congruence|reflexivity].
  - change (join (lit " ") (x :: y :: l))
      with (x ++ lit " " ++ join (lit " ") (y :: l)).
    rewrite (split_from_word x _ [] Hn). cbn [app].
    destruct x as [|c x]; [congruence|].
    now rewrite split_from_space, IH.
Qed.

Lemma lstrip_app_solid u c v : is_space c = false -> lstrip (u ++ c :: v) <> [].
Proof.
  intros H. induction u as [|d u IH]; simpl.
  - rewrite H. discriminate.
  - destruct (is_space d); [exact IH|discriminate].
Qed.

(** A string with a character that is not white space does not strip to
    the empty string. *)
Lemma strip_solid u c v : is_space c = false -> truthy (strip (u ++ c :: v)) = true.
Proof.
  intros H. unfold strip, rstrip.
  assert (L : exists u' v', lstrip (u ++ c :: v) = u' ++ c :: v').
  { induction u as [|d u IH]; simpl.
    - rewrite H. now exists [], v.
    - destruct (is_space d); [exact IH|]. now exists (d :: u), v. }
  destruct L as (u' & v' & ->).
  rewrite rev_app_distr. simpl. rewrite <- app_assoc. simpl.
  pose proof (@lstrip_app_solid (rev v') c (rev u') H) as N.
  destruct (lstrip (rev v' ++ c :: rev u')) as [|x l] eqn:E; [congruence|].
  simpl. destruct (rev l ++ [x]) eqn:E'; [|reflexivity].
  now apply app_eq_nil in E' as [_ E'].
Qed.

Lemma join_head sep x l : exists rest, join sep (x :: l) = x ++ rest.
Proof.
  destruct l as [|y l]; simpl.
  - exists []. now rewrite app_nil_r.
  - eexists. reflexivity.
Qed.

Lemma join_words_truthy ws :
  ws <> [] -> Forall is_word ws -> truthy (strip (join (lit " ") ws)) = true.
Proof.
  intros N F. destruct ws as [|x l]; [congruence|].
  inversion F as [|? ? [Hx Hn] _]; subst.
  destruct (join_head (lit " ") x l) as [rest ->].
  destruct x as [|c x]; [congruence|].
  simpl in Hn. apply andb_true_iff in Hn as [Hc _]. apply negb_true_iff in Hc.
  apply (@strip_solid [] c (x ++ rest) Hc).
Qed.

End SplitJoin.

Section RangeSlice.

Import Builtins.

Lemma chunk_count_le n step k :
  0 < step -> n <= k * step -> chunk_count n step <= k.
Proof.
  intros Hs L. unfold chunk_count.
  assert (H : (n + step - 1) / step < S k)
    by (apply Nat.Div0.div_lt_upper_bound; nia).
  lia.
Qed.

Lemma chunk_count_gt n step k :
  0 < step -> k * step < n -> k < chunk_count n step.
Proof.
  intros Hs L. unfold chunk_count.
  assert (H : S k <= (n + step - 1) / step)
    by (apply Nat.div_le_lower_bound; nia).
  lia.
Qed.

(** With a positive step the fuel is enough: the range lists every multiple
    of the step below the bound. *)
Lemma range_up_from n step : 0 < step -> forall fuel k0,
  n <= fuel + k0 * step ->
  range_up fuel (Z.of_nat (k0 * step)) (Z.of_nat n) (Z.of_nat step) =
  map (fun k => Z.of_nat (k * step)) (seq k0 (chunk_count n step - k0)).
Proof.
  intros Hs. induction fuel as [|fuel IH]; intros k0 L; simpl.
  - replace (chunk_count n step - k0) with 0
      by (pose proof (@chunk_count_le n step k0 Hs); lia).
    reflexivity.
  - destruct (Z.ltb_spec (Z.of_nat (k0 * step)) (Z.of_nat n)) as [Lt|Ge].
    + pose proof (@chunk_count_gt n step k0 Hs) as G.
      replace (chunk_count n step - k0) with (S (chunk_count n step - S k0)) by lia.
      simpl. f_equal.
      replace (Z.of_nat (k0 * step) + Z.of_nat step)%Z
        with (Z.of_nat (S k0 * step)) by lia.
      apply IH. simpl. lia.
    + replace (chunk_count n step - k0) with 0
        by (pose proof (@chunk_count_le n step k0 Hs); lia).
      reflexivity.
Qed.

Lemma range_positive_step n step :
  0 < step ->
  range 0 (Z.of_nat n) (Z.of_nat step) =
  inr (map (fun k => Z.of_nat (k * step)) (seq 0 (chunk_count n step))).
Proof.
  intros Hs. unfold range.
  destruct (Z.eqb_spec (Z.of_nat step) 0); [lia|].
  destruct (Z.ltb_spec 0 (Z.of_nat step)); [|lia].
  pose proof (@range_up_from n step Hs (Z.to_nat (Z.of_nat n - 0)) 0) as R.
  change (Z.of_nat (0 * step)) with 0%Z in R.
  rewrite R by lia. now rewrite Nat.sub_0_r.
Qed.

Lemma range_negative_step n step :
  (step < 0)%Z -> range 0 (Z.of_nat n) step = inr [].
Proof.
  intros Hs. unfold range.
  destruct (Z.eqb_spec step 0); [lia|].
  destruct (Z.ltb_spec 0 step); [lia|].
  replace (Z.to_nat (0 - Z.of_nat n)) with 0 by lia. reflexivity.
Qed.

(** A slice that starts at a position and has a length is a window. *)
Lemma slice_window {A : Type} (l : list A) (i size : nat) :
  slice l (Z.of_nat i) (Z.of_nat i + Z.of_nat size) = firstn size (skipn i l).
Proof.
  unfold slice, slice_index.
  destruct (Z.ltb_spec (Z.of_nat i) 0); [lia|].
  destruct (Z.ltb_spec (Z.of_nat i + Z.of_nat size) 0); [lia|].
  destruct (Nat.le_gt_cases (List.length l) i) as [Ge|Lt].
  - rewrite (skipn_all2 l Ge), firstn_nil.
    replace (Z.to_nat (Z.min (Z.of_nat i) (Z.of_nat (List.length l))))
      with (List.length l) by lia.
    now rewrite skipn_all, firstn_nil.
  - replace (Z.to_nat (Z.min (Z.of_nat i) (Z.of_nat (List.length l)))) with i by lia.
    destruct (Nat.le_gt_cases (i + size) (List.length l)) as [In|Out].
    + f_equal. lia.
    + rewrite (firstn_all2 (n := size)) by (rewrite length_skipn; lia).
      apply firstn_all2. rewrite length_skipn. lia.
Qed.

Lemma fold_left_collect {A B : Type} (P : A -> bool) (g : A -> B) (l : list A) :
  forall acc,
    fold_left (fun chunks i => if P i then chunks ++ [g i] else chunks) l acc =
    acc ++ map g (filter P l).
Proof.
  induction l as [|x l IH]; intros acc; simpl.
  - now rewrite app_nil_r.
  - rewrite IH. destruct (P x); [|reflexivity].
    simpl. now rewrite <- app_assoc.
Qed.

Lemma filter_all {A : Type} (P : A -> bool) (l : list A) :
  (forall x, In x l -> P x = true) -> filter P l = l.
Proof.
  induction l as [|x l IH]; intros H; [reflexivity|].
  simpl. rewrite (H x) by now left. f_equal. apply IH. intros y Hy. apply H. now right.
Qed.

Lemma In_firstn_In {A : Type} (x : A) n l : In x (firstn n l) -> In x l.
Proof. intros H. rewrite <- (firstn_skipn n l). apply in_or_app. now left. Qed.

Lemma In_skipn_In {A : Type} (x : A) n l : In x (skipn n l) -> In x l.
Proof. intros H. rewrite <- (firstn_skipn n l). apply in_or_app. now right. Qed.

Lemma Forall_window {A : Type} (P : A -> Prop) (l : list A) size step k :
  Forall P l -> Forall P (window l size step k).
Proof.
  intros F. apply Forall_forall. intros x Hx.
  apply (proj1 (Forall_forall P l) F).
  unfold window in Hx. now apply In_firstn_In, In_skipn_In in Hx.
Qed.

Lemma window_not_nil {A : Type} (l : list A) size step k :
  0 < size -> k * step < List.length l -> window l size step k <> [].
Proof.
  intros Hs L E. apply (f_equal (@List.length A)) in E.
  unfold window in E. rewrite length_firstn, length_skipn in E. simpl in E. lia.
Qed.

End RangeSlice.

Section ChunkText.

Import Builtins BuildVectorDb.

Lemma chunk_count_lt n step k : k < chunk_count n step -> k * step < n.
Proof.
  intros H. destruct (Nat.le_gt_cases n (k * step)) as [L|G]; [|exact G].
  destruct step as [|step].
  - unfold chunk_count in H. simpl in H. lia.
  - pose proof (@chunk_count_le n (S step) k). lia.
Qed.

(** In the ordinary case, a positive chunk size and a smaller overlap, the
    chunks are the windows over the words, joined by spaces; no window is
    dropped. *)
Lemma chunk_text_windows (text : str) (size step : nat) :
  0 < size -> 0 < step ->
  chunk_text text (Z.of_nat size) (Z.of_nat size - Z.of_nat step) =
  inr (map (fun k => join (lit " ") (window (split text) size step k))
           (seq 0 (chunk_count (List.length (split text)) step))).
Proof.
  intros Hsize Hstep. unfold chunk_text.
  replace (Z.of_nat size - (Z.of_nat size - Z.of_nat step))%Z
    with (Z.of_nat step) by lia.
  rewrite (range_positive_step _ Hstep). f_equal. cbv zeta.
  rewrite (fold_left_collect
             (fun i => truthy (strip (join (lit " ")
                                        (slice (split text) i (i + Z.of_nat size)))))
             (fun i => join (lit " ") (slice (split text) i (i + Z.of_nat size)))).
  cbn [app]. rewrite filter_all.
  - rewrite map_map. apply map_ext. intros k. now rewrite slice_window.
  - intros x Hx. apply in_map_iff in Hx as (k & <- & Hk).
    apply in_seq in Hk. rewrite slice_window.
    apply join_words_truthy.
    + apply window_not_nil; [assumption|]. apply chunk_count_lt. lia.
    + apply Forall_window, split_words.
Qed.

Lemma as_size_and_step (chunk_size overlap : Z) :
  (0 < chunk_size)%Z -> (overlap < chunk_size)%Z ->
  chunk_size = Z.of_nat (Z.to_nat chunk_size) /\
  overlap = (Z.of_nat (Z.to_nat chunk_size)
             - Z.of_nat (Z.to_nat (chunk_size - overlap)))%Z /\
  0 < Z.to_nat chunk_size /\ 0 < Z.to_nat (chunk_size - overlap).
Proof. lia. Qed.

Lemma chunk_text_layout (text : str) (chunk_size overlap : Z) :
  (0 < chunk_size)%Z -> (overlap < chunk_size)%Z ->
  let words := split text in
  let size := Z.to_nat chunk_size in
  let step := Z.to_nat (chunk_size - overlap) in
  exists chunks,
    chunk_text text chunk_size overlap = inr chunks /\
    List.length chunks = chunk_count (List.length words) step /\
    forall k, k < List.length chunks ->
      nth k chunks [] = join (lit " ") (window words size step k) /\
      split (nth k chunks []) = window words size step k /\
      1 <= List.length (window words size step k) <= size.
Proof.
  intros Hc Ho words size step.
  destruct (as_size_and_step Hc Ho) as (Ec & Eo & Hsize & Hstep).
  fold size step in Ec, Eo, Hsize, Hstep.
  eexists. split; [rewrite Ec, Eo at 1; apply chunk_text_windows; assumption|].
  split; [now rewrite length_map, length_seq|].
  intros k Hk. rewrite length_map, length_seq in Hk.
  assert (E : nth k (map (fun k => join (lit " ") (window (split text) size step k))
                         (seq 0 (chunk_count (List.length (split text)) step))) []
              = join (lit " ") (window words size step k)).
  { rewrite (nth_indep _ [] (join (lit " ") (window words size step 0)))
      by now rewrite length_map, length_seq.
    rewrite (map_nth (fun k => join (lit " ") (window (split text) size step k))).
    now rewrite seq_nth. }
  rewrite E. split; [reflexivity|].
  split; [apply split_join, Forall_window, split_words|].
  pose proof (chunk_count_lt _ _ Hk) as L. fold words in L.
  unfold window. rewrite length_firstn, length_skipn. lia.
Qed.

(** X7.  For a positive chunk size and a smaller overlap, [chunk_text]
    returns one chunk per [chunk_size - overlap] words, rounded up; chunk
    number [k] is the [chunk_size] words from word [k * (chunk_size -
    overlap)] on, joined by single spaces, so it splits back into between one
    and [chunk_size] words of the text. *)
Theorem X7_chunks_are_windows_of_words (text : str) (chunk_size overlap : Z) :
  (0 < chunk_size)%Z -> (overlap < chunk_size)%Z ->
  let words := split text in
  let size := Z.to_nat chunk_size in
  let step := Z.to_nat (chunk_size - overlap) in
  exists chunks,
    chunk_text text chunk_size overlap = inr chunks /\
    List.length chunks = chunk_count (List.length words) step /\
    forall k, k < List.length chunks ->
      nth k chunks [] = join (lit " ") (window words size step k) /\
      split (nth k chunks []) = window words size step k /\
      1 <= List.length (window words size step k) <= size.
Proof. exact (@chunk_text_layout text chunk_size overlap). Qed.

Lemma X7_witness :
  (0 < 3)%Z /\ (1 < 3)%Z /\
  exists chunks,
    chunk_text (lit "  a b c   d e f g ") 3 1 = inr chunks /\
    List.length chunks = chunk_count (List.length (split (lit "  a b c   d e f g "))) 2 /\
    forall k, k < List.length chunks ->
      nth k chunks [] = join (lit " ") (window (split (lit "  a b c   d e f g ")) 3 2 k) /\
      split (nth k chunks []) = window (split (lit "  a b c   d e f g ")) 3 2 k /\
      1 <= List.length (window (split (lit "  a b c   d e f g ")) 3 2 k) <= 3.
Proof.
  split; [lia|]. split; [lia|].
  apply (@X7_chunks_are_windows_of_words (lit "  a b c   d e f g ") 3 1); lia.
Defined.

Lemma In_window {A : Type} (l : list A) (size step j : nat) (d : A) :
  0 < step -> step <= size -> j < List.length l ->
  In (nth j l d) (window l size step (j / step)).
Proof.
  intros Hs Hsz Hj. unfold window.
  pose proof (Nat.Div0.div_mod j step) as D.
  pose proof (Nat.mod_upper_bound j step ltac:(lia)) as M.
  apply (nth_error_In _ (j mod step)).
  rewrite nth_error_firstn.
  destruct (Nat.ltb_spec (j mod step) size); [|lia].
  rewrite nth_error_skipn.
  replace (j / step * step + j mod step) with j by lia.
  now apply nth_error_nth'.
Qed.

(** X8.  With an overlap that is not negative (and smaller than a positive
    chunk size) no word is lost: every word of the text occurs in some
    chunk. *)
Theorem X8_every_word_is_in_some_chunk (text : str) (chunk_size overlap : Z) :
  (0 <= overlap)%Z -> (overlap < chunk_size)%Z ->
  exists chunks,
    chunk_text text chunk_size overlap = inr chunks /\
    forall w, In w (split text) ->
      exists chunk, In chunk chunks /\ In w (split chunk).
Proof.
  intros Ho Hc.
  destruct (@as_size_and_step chunk_size overlap ltac:(lia) Hc)
    as (Ec & Eo & Hsize & Hstep).
  set (size := Z.to_nat chunk_size) in *.
  set (step := Z.to_nat (chunk_size - overlap)) in *.
  eexists. split; [rewrite Ec, Eo at 1; apply chunk_text_windows; assumption|].
  intros w Hw. apply (In_nth _ _ []) in Hw as (j & Hj & <-).
  exists (join (lit " ") (window (split text) size step (j / step))). split.
  - apply in_map_iff. exists (j / step). split; [reflexivity|].
    apply in_seq. split; [lia|]. rewrite Nat.add_0_l.
    apply chunk_count_gt; [assumption|].
    rewrite Nat.mul_comm.
    eapply Nat.le_lt_trans; [apply Nat.Div0.mul_div_le|exact Hj].
  - rewrite split_join by apply Forall_window, split_words.
    apply In_window; [assumption|lia|assumption].
Qed.

Lemma X8_witness :
  (0 <= 1)%Z /\ (1 < 3)%Z /\
  exists chunks,
    chunk_text (lit "a b c d e f g") 3 1 = inr chunks /\
    forall w, In w (split (lit "a b c d e f g")) ->
      exists chunk, In chunk chunks /\ In w (split chunk).
Proof.
  split; [lia|]. split; [lia|].
  apply (@X8_every_word_is_in_some_chunk (lit "a b c d e f g") 3 1); lia.
Defined.

(** X9.  Consecutive chunks share [overlap] words: what chunk [k] holds
    after its first [chunk_size - overlap] words is what chunk [k + 1]
    starts with. *)
Theorem X9_consecutive_chunks_overlap (text : str) (chunk_size overlap : Z) :
  (0 <= overlap)%Z -> (overlap < chunk_size)%Z ->
  exists chunks,
    chunk_text text chunk_size overlap = inr chunks /\
    forall k, S k < List.length chunks ->
      skipn (Z.to_nat (chunk_size - overlap)) (split (nth k chunks [])) =
      firstn (Z.to_nat overlap) (split (nth (S k) chunks [])).
Proof.
  intros Ho Hc.
  destruct (@chunk_text_layout text chunk_size overlap
              ltac:(lia) Hc) as (chunks & E & _ & W).
  exists chunks. split; [exact E|]. intros k Hk.
  destruct (W k ltac:(lia)) as (_ & -> & _).
  destruct (W (S k) Hk) as (_ & -> & _).
  unfold window. rewrite skipn_firstn_comm, skipn_skipn, firstn_firstn.
  replace (Nat.min (Z.to_nat overlap) (Z.to_nat chunk_size))
    with (Z.to_nat overlap) by lia.
  replace (Z.to_nat chunk_size - Z.to_nat (chunk_size - overlap))
    with (Z.to_nat overlap) by lia.
  f_equal; f_equal; lia.
Qed.

Lemma X9_witness :
  (0 <= 1)%Z /\ (1 < 3)%Z /\
  exists chunks,
    chunk_text (lit "a b c d e f g") 3 1 = inr chunks /\
    forall k, S k < List.length chunks ->
      skipn (Z.to_nat (3 - 1)) (split (nth k chunks [])) =
      firstn (Z.to_nat 1) (split (nth (S k) chunks [])).
Proof.
  split; [lia|]. split; [lia|].
  apply (@X9_consecutive_chunks_overlap (lit "a b c d e f g") 3 1); lia.
Defined.

Lemma split_from_nil s : forall acc,
  split_from s acc = [] <-> acc = [] /\ forallb is_space s = true.
Proof.
  induction s as [|c s IH]; intros acc; simpl.
  - destruct acc; split; try tauto; try discriminate. intros [H _]. discriminate.
  - destruct (is_space c); simpl.
    + destruct acc.
      * rewrite IH. tauto.
      * split; [discriminate|]. intros [H _]. discriminate.
    + rewrite IH. split; [|intros [_ H]; discriminate].
      intros [H _]. now apply app_eq_nil in H as [_ H].
Qed.

(** X10.  The parameters decide whether [chunk_text] works at all: equal
    chunk size and overlap raise the error of a zero range step, for every
    text; an overlap above the chunk size returns no chunk, for every text. *)
Theorem X10_chunk_text_degenerate_parameters (text : str) (chunk_size overlap : Z) :
  (chunk_text text chunk_size overlap =
     inl (Evaluator.ValueError (lit "range() arg 3 must not be zero"))
   <-> chunk_size = overlap) /\
  ((chunk_size < overlap)%Z -> chunk_text text chunk_size overlap = inr []).
Proof.
  unfold chunk_text, range. split.
  - destruct (Z.eqb_spec (chunk_size - overlap) 0) as [E|N].
    + split; [lia|reflexivity].
    + split; [|lia]. destruct (0 <? chunk_size - overlap)%Z; discriminate.
  - intros L. fold (range 0 (Z.of_nat (List.length (split text))) (chunk_size - overlap)).
    now rewrite range_negative_step by lia.
Qed.

(** X11.  For a positive chunk size and a smaller overlap the result is
    empty exactly when the text is blank: a text with a word gives a chunk. *)
Theorem X11_no_chunks_iff_blank (text : str) (chunk_size overlap : Z) :
  (0 < chunk_size)%Z -> (overlap < chunk_size)%Z ->
  (chunk_text text chunk_size overlap = inr [] <-> forallb is_space text = true).
Proof.
  intros Hc Ho.
  destruct (@chunk_text_layout text chunk_size overlap Hc Ho)
    as (chunks & E & L & _).
  rewrite E. split.
  - intros [= ->]. simpl in L.
    assert (N : split text = []).
    { destruct (split text) as [|w ws] eqn:S; [reflexivity|]. exfalso.
      assert (0 < chunk_count (List.length (w :: ws)) (Z.to_nat (chunk_size - overlap)))
        by (apply chunk_count_gt; simpl; lia).
      lia. }
    now apply split_from_nil in N as [_ N].
  - intros B. assert (N : split text = []) by now apply split_from_nil.
    rewrite N in L. unfold chunk_count in L. simpl in L.
    rewrite Nat.div_small in L by lia.
    destruct chunks; [reflexivity|discriminate].
Qed.

Lemma X11_witness :
  (0 < 300)%Z /\ (50 < 300)%Z /\
  (chunk_text (lit "  ") 300 50 = inr [] <-> forallb is_space (lit "  ") = true).
Proof.
  split; [lia|]. split; [lia|].
  apply (@X11_no_chunks_iff_blank (lit "  ") 300 50); lia.
Defined.

End ChunkText.

(** * build_prompt *)

Section BuildPrompt.

Import Builtins RagSystem.

Variable M : Type.

Implicit Types (docs : list (retrieved_doc M)) (doc : retrieved_doc M).

Lemma join_In (sep x : str) (l : list str) :
  In x l -> exists pre post, join sep l = pre ++ x ++ post.
Proof.
  induction l as [|y l IH]; [intros []|].
  intros [->|H].
  - destruct (join_head sep x l) as [rest ->]. now exists [], rest.
  - destruct (IH H) as (pre & post & E). destruct l as [|z l]; [destruct H|].
    change (join sep (y :: z :: l)) with (y ++ sep ++ join sep (z :: l)).
    rewrite E. exists (y ++ sep ++ pre), post. now rewrite <- !app_assoc.
Qed.

Lemma enumerate_from_nth {A : Type} (l : list A) : forall k i x,
  nth_error l i = Some x -> In (k + i, x) (enumerate_from k l).
Proof.
  induction l as [|y l IH]; intros k [|i] x H; simpl in *; try discriminate.
  - injection H as ->. left. f_equal. lia.
  - right. replace (k + S i) with (S k + i) by lia. now apply IH.
Qed.

Lemma instruction_known question_type :
  In question_type categories ->
  instruction_for question_type <> default_instruction.
Proof.
  intros [<-|[<-|[<-|[<-|[]]]]]; vm_compute; discriminate.
Qed.

Lemma instruction_unknown question_type :
  ~ In question_type categories ->
  instruction_for question_type = default_instruction.
Proof.
  intros N. unfold instruction_for.
  now rewrite (proj2 (get_None type_instructions question_type) N).
Qed.

(** X12.  The prompt ends with the instruction for the question type, and
    that instruction is a type-specific one exactly when the evaluator accepts
    the type: for any other type [build_prompt] falls back to the generic
    instruction where [evaluate] raises. *)
Theorem X12_specific_instruction_iff_evaluator_accepts
  (question : str) docs (question_type answer : str) :
  (exists before,
     build_prompt question docs question_type =
     before ++ lit "Instructions: " ++ instruction_for question_type
     ++ newline ++ newline ++ lit "Answer:") /\
  ((exists r, evaluate answer question_type = inr r) <->
   instruction_for question_type <> default_instruction).
Proof.
  split.
  - eexists. unfold build_prompt, instruction_for. cbv zeta.
    rewrite !app_assoc. reflexivity.
  - destruct (in_dec (list_eq_dec codepoint_eq_dec) question_type categories) as [I|N].
    + split; [intros _; now apply instruction_known|intros _].
      destruct (evaluate_known answer I) as [[_ E]|[[_ E]|[[_ E]|[_ E]]]];
        rewrite E; eauto.
    + rewrite (evaluate_unknown answer N), (instruction_unknown N).
      split; [intros [r Hr]; discriminate|congruence].
Qed.

(** X13.  Nothing retrieved is left out of the prompt: the block of every
    retrieved document, its number and its whole content, occurs in it, and
    so does the question. *)
Theorem X13_prompt_contains_every_document
  (question : str) docs (question_type : str) (i : nat) doc :
  nth_error docs i = Some doc ->
  contains (document_block i doc) (build_prompt question docs question_type) = true /\
  contains (lit "Question: " ++ question)
           (build_prompt question docs question_type) = true.
Proof.
  intros H. unfold build_prompt. cbv zeta. split.
  - do 5 apply contains_app_r. apply contains_app_l.
    apply contains_spec. apply join_In. apply in_map_iff.
    exists (i, doc). split; [reflexivity|].
    apply (enumerate_from_nth docs 0 i H).
  - do 8 apply contains_app_r. rewrite app_assoc. apply contains_app_l.
    apply contains_spec. exists [], []. now rewrite app_nil_r.
Qed.

End BuildPrompt.

Lemma X13_witness :
  nth_error [RagSystem.Build_retrieved_doc (lit "Open 9am-9pm") tt None;
             RagSystem.Build_retrieved_doc (lit "Central Library, Kent Ridge") tt None] 1
    = Some (RagSystem.Build_retrieved_doc (lit "Central Library, Kent Ridge") tt None) /\
  contains
    (document_block 1 (RagSystem.Build_retrieved_doc (lit "Central Library, Kent Ridge") tt None))
    (RagSystem.build_prompt (lit "Where is the library?")
       [RagSystem.Build_retrieved_doc (lit "Open 9am-9pm") tt None;
        RagSystem.Build_retrieved_doc (lit "Central Library, Kent Ridge") tt None]
       (lit "factual")) = true /\
  contains (lit "Question: " ++ lit "Where is the library?")
    (RagSystem.build_prompt (lit "Where is the library?")
       [RagSystem.Build_retrieved_doc (lit "Open 9am-9pm") tt None;
        RagSystem.Build_retrieved_doc (lit "Central Library, Kent Ridge") tt None]
       (lit "factual")) = true.
Proof.
  split; [reflexivity|].
  apply (@X13_prompt_contains_every_document unit). reflexivity.
Defined.

(** * run_experiment *)

Section RunExperimentFacts.

Import RunExperiment PyNum Builtins.
Local Open Scope Q_scope.

Variables W E D : Type.
Variable rag_query : W -> str -> str -> str -> Z -> W * (E + query_result D).

Lemma evaluate_inr answer qtype r :
  evaluate answer qtype = inr r ->
  In qtype categories /\
  exists x, Dict.get r (lit "total_score") = Some (Dict.VFloat x) /\ 0 <= x <= 1.
Proof.
  intros H.
  destruct (in_dec (list_eq_dec codepoint_eq_dec) qtype categories) as [I|N].
  - split; [assumption|].
    destruct (evaluate_known answer I) as [[_ K]|[[_ K]|[[_ K]|[_ K]]]];
      rewrite K in H; injection H as <-; eexists.
    + rewrite evaluate_factual_unfold. split; [reflexivity|].
      apply round3_unit, factual_total_unit.
    + rewrite evaluate_procedural_unfold. split; [reflexivity|].
      apply round3_unit, procedural_total_unit.
    + rewrite evaluate_comparative_unfold. split; [reflexivity|].
      apply round3_unit, comparative_total_unit.
    + rewrite evaluate_recommendation_unfold. split; [reflexivity|].
      apply round3_unit, recommendation_total_unit.
  - rewrite (evaluate_unknown answer N) in H. discriminate.
Qed.

Lemma evaluate_inl answer qtype e :
  evaluate answer qtype = inl e ->
  ~ In qtype categories /\ e = ValueError (lit "Unknown question type: " ++ qtype).
Proof.
  intros H.
  destruct (in_dec (list_eq_dec codepoint_eq_dec) qtype categories) as [I|N].
  - destruct (evaluate_known answer I) as [[_ K]|[[_ K]|[[_ K]|[_ K]]]];
      rewrite K in H; discriminate.
  - rewrite (evaluate_unknown answer N) in H. split; [assumption|congruence].
Qed.

Lemma ask_all_scored model qtype questions : forall w acc w' rs,
  ask_all rag_query w model qtype questions acc = (w', inr rs) ->
  Forall (scored qtype) acc -> Forall (scored qtype) rs.
Proof.
  induction questions as [|q qs IH]; intros w acc w' rs H F; simpl in H.
  - now injection H as _ <-.
  - destruct (rag_query w q model qtype 5) as [w1 [e|res]]; [discriminate|].
    destruct (q_success res); [|now apply (IH _ _ _ _ H)].
    destruct (evaluate (q_answer res) qtype) as [e|ev] eqn:Ev; [discriminate|].
    apply (IH _ _ _ _ H). apply Forall_app. split; [assumption|].
    constructor; [exact Ev|constructor].
Qed.

Lemma ask_all_raised model qtype questions : forall w acc w' e,
  ask_all rag_query w model qtype questions acc = (w', inl e) ->
  (exists e0, e = QueryRaised e0) \/
  (~ In qtype categories /\
   e = EvaluateRaised (ValueError (lit "Unknown question type: " ++ qtype))).
Proof.
  induction questions as [|q qs IH]; intros w acc w' e H; simpl in H.
  - discriminate.
  - destruct (rag_query w q model qtype 5) as [w1 [e0|res]].
    + injection H as _ <-. left. eauto.
    + destruct (q_success res); [|now apply (IH _ _ _ _ H)].
      destruct (evaluate (q_answer res) qtype) as [e1|ev] eqn:Ev.
      * injection H as _ <-. right.
        apply evaluate_inl in Ev as [N ->]. auto.
      * now apply (IH _ _ _ _ H).
Qed.

Lemma sum_totals_bounds qtype rs : forall acc,
  Forall (scored qtype) rs ->
  exists t, @sum_totals E rs acc = inr t /\
            acc <= t <= acc + inject_Z (Z.of_nat (List.length rs)).
Proof.
  induction rs as [|r rs IH]; intros acc F.
  - exists acc. split; [reflexivity|].
    change (inject_Z (Z.of_nat (List.length (@nil full_result)))) with 0. lra.
  - inversion F as [|? ? S F']; subst.
    apply evaluate_inr in S as (_ & x & G & Hx).
    destruct (IH (acc + x) F') as (t & Ht & B).
    exists t. cbn [sum_totals]. unfold total_score_of. rewrite G.
    split; [exact Ht|].
    replace (Z.of_nat (List.length (r :: rs)))
      with (1 + Z.of_nat (List.length rs))%Z by (simpl List.length; lia).
    rewrite inject_Z_plus. change (inject_Z 1) with 1. lra.
Qed.

Lemma summarise_scored qtype rs :
  rs <> [] -> Forall (scored qtype) rs ->
  exists s, @summarise E rs = inr s /\
            questions_count s = List.length rs /\ details s = rs /\
            0 <= average_score s <= 1.
Proof.
  intros N F. unfold summarise.
  destruct (sum_totals_bounds 0 F) as (t & -> & B).
  eexists. split; [reflexivity|]. cbn [questions_count details average_score].
  split; [reflexivity|]. split; [reflexivity|].
  apply round3_unit. unfold int_div_by.
  assert (P : 0 < inject_Z (Z.of_nat (List.length rs))).
  { change 0 with (inject_Z 0). rewrite <- Zlt_Qlt.
    destruct rs; [congruence|simpl List.length; lia]. }
  split.
  - apply Qle_shift_div_l; [exact P|]. lra.
  - apply Qle_shift_div_r; [exact P|]. lra.
Qed.

Lemma get_dict_set {V : Type} (d : list (str * V)) k v k' v' :
  Dict.get (dict_set d k v) k' = Some v' ->
  (k' = k /\ v' = v) \/ Dict.get d k' = Some v'.
Proof.
  induction d as [|[k0 v0] d IH]; simpl.
  - destruct (str_eqb k k') eqn:Ek; [|discriminate].
    apply str_eqb_eq in Ek. intros [= <-]. auto.
  - destruct (str_eqb k0 k) eqn:E0; simpl.
    + apply str_eqb_eq in E0. subst k0.
      destruct (str_eqb k k') eqn:Ek; [|auto].
      apply str_eqb_eq in Ek. intros [= <-]. auto.
    + destruct (str_eqb k0 k'); [auto|exact IH].
Qed.

Lemma all_entries_set {V : Type} (P : str -> V -> Prop) d k v :
  all_entries P d -> P k v -> all_entries P (dict_set d k v).
Proof.
  intros A H k' v' G. apply get_dict_set in G as [[-> ->]|G]; [exact H|now apply A].
Qed.

Lemma run_types_well_formed model items : forall w mr w' mr',
  run_types rag_query w model items mr = (w', inr mr') ->
  all_entries well_formed_summary mr -> all_entries well_formed_summary mr'.
Proof.
  induction items as [|[qtype questions] items IH]; intros w mr w' mr' H A;
    simpl in H.
  - now injection H as _ <-.
  - destruct questions as [|q qs]; [now apply (IH _ _ _ _ H)|].
    destruct (ask_all rag_query w model qtype (q :: qs) []) as [w1 [e|rs]] eqn:Ask;
      [discriminate|].
    pose proof (@ask_all_scored model qtype (q :: qs) w [] w1 rs Ask (Forall_nil _)) as F.
    destruct rs as [|r rs]; [now apply (IH _ _ _ _ H)|].
    destruct (@summarise_scored qtype (r :: rs) ltac:(discriminate) F)
      as (s & Es & Hc & Hd & Ha).
    rewrite Es in H. apply (IH _ _ _ _ H). apply all_entries_set; [exact A|].
    unfold well_formed_summary. rewrite Hc, Hd.
    repeat split; try (simpl List.length; lia); try apply Ha; [|exact F].
    inversion F as [|? ? S _]; subst. now apply evaluate_inr in S as [I _].
Qed.

Lemma run_types_raised model items : forall w mr w' e,
  run_types rag_query w model items mr = (w', inl e) ->
  expected_exception items e.
Proof.
  induction items as [|[qtype questions] items IH]; intros w mr w' e H;
    simpl in H.
  - discriminate.
  - assert (Up : forall e : raised E, expected_exception items e ->
                           expected_exception ((qtype, questions) :: items) e).
    { intros [e0|x|k|]; simpl; auto.
      intros (qt & qs & I & N & ->). exists qt, qs. auto. }
    destruct questions as [|q qs]; [now apply Up, (IH _ _ _ _ H)|].
    destruct (ask_all rag_query w model qtype (q :: qs) []) as [w1 [e1|rs]] eqn:Ask.
    + injection H as _ <-.
      apply ask_all_raised in Ask as [[e0 ->]|[N ->]]; simpl; [exact I|].
      exists qtype, (q :: qs). auto.
    + pose proof (@ask_all_scored model qtype (q :: qs) w [] w1 rs Ask (Forall_nil _)) as F.
      destruct rs as [|r rs]; [now apply Up, (IH _ _ _ _ H)|].
      destruct (@summarise_scored qtype (r :: rs) ltac:(discriminate) F)
        as (s & Es & _).
      rewrite Es in H. now apply Up, (IH _ _ _ _ H).
Qed.

Lemma run_models_well_formed models questions_dict : forall w all w' all',
  run_models rag_query w models questions_dict all = (w', inr all') ->
  all_entries (fun _ => all_entries well_formed_summary) all ->
  all_entries (fun _ => all_entries well_formed_summary) all'.
Proof.
  induction models as [|model models IH]; intros w all w' all' H A; simpl in H.
  - now injection H as _ <-.
  - destruct (run_types rag_query w model questions_dict []) as [w1 [e|mr]] eqn:R;
      [discriminate|].
    apply (IH _ _ _ _ H). apply all_entries_set; [exact A|].
    apply (@run_types_well_formed model questions_dict w [] w1 mr R). intros k v G. discriminate.
Qed.

Lemma run_models_raised models questions_dict : forall w all w' e,
  run_models rag_query w models questions_dict all = (w', inl e) ->
  expected_exception questions_dict e.
Proof.
  induction models as [|model models IH]; intros w all w' e H; simpl in H.
  - discriminate.
  - destruct (run_types rag_query w model questions_dict []) as [w1 [e1|mr]] eqn:R.
    + injection H as _ <-. now apply (@run_types_raised model questions_dict w [] w1 e1 R).
    + now apply (IH _ _ _ _ H).
Qed.



End RunExperimentFacts.



(** * to_per_model_dict *)

Section PerModel.

Import Builtins Visualization.

Variable A : Type.

Implicit Types (cat_dict per_model : list (str * list A)) (categories models : list str).

Lemma str_eqb_neq (s t : str) : str_eqb s t = false <-> s <> t.
Proof.
  split.
  - intros E H. apply str_eqb_eq in H. congruence.
  - intros N. destruct (str_eqb s t) eqn:E; [|reflexivity].
    apply str_eqb_eq in E. contradiction.
Qed.

(** Reading a dictionary after a write. *)
Lemma get_set {V : Type} (d : list (str * V)) k v k' :
  Dict.get (dict_set d k v) k' = if str_eqb k k' then Some v else Dict.get d k'.
Proof.
  induction d as [|[k0 v0] d IH]; simpl.
  - reflexivity.
  - destruct (str_eqb k0 k) eqn:E0; simpl.
    + apply str_eqb_eq in E0. subst k0. destruct (str_eqb k k'); reflexivity.
    + rewrite IH. destruct (str_eqb k0 k') eqn:E1; [|reflexivity].
      apply str_eqb_eq in E1. subst k'.
      destruct (str_eqb k k0) eqn:E2; [|reflexivity].
      apply str_eqb_eq in E2. subst k0. rewrite str_eqb_refl in E0. discriminate.
Qed.

Lemma row_ok cat_dict categories i : forall values,
  row cat_dict categories i = inr values <->
  Forall2 (fun c v => exists scores, Dict.get cat_dict c = Some scores /\
                                     nth_error scores i = Some v)
          categories values.
Proof.
  induction categories as [|c cs IH]; intros values; simpl.
  - split.
    + intros [= <-]. constructor.
    + intros F. now inversion F.
  - destruct (Dict.get cat_dict c) as [scores|] eqn:G.
    + destruct (nth_error scores i) as [v|] eqn:N.
      * destruct (row cat_dict cs i) as [e|vs] eqn:R.
        -- split; [discriminate|]. intros F. inversion F; subst.
           apply IH in H3. discriminate.
        -- split.
           ++ intros [= <-]. constructor; [eauto|now apply IH].
           ++ intros F. inversion F as [|? w ? ws (sc & G' & N') F']; subst.
              apply IH in F'. injection F' as <-. congruence.
      * split; [discriminate|]. intros F.
        inversion F as [|? w ? ws (sc & G' & N') F']; subst. congruence.
    + split; [discriminate|]. intros F.
      inversion F as [|? w ? ws (sc & G' & N') F']; subst. congruence.
Qed.

Lemma row_succeeds cat_dict categories i :
  (exists values, row cat_dict categories i = inr values) <->
  forall c, In c categories ->
    exists scores, Dict.get cat_dict c = Some scores /\ i < List.length scores.
Proof.
  induction categories as [|c cs IH]; simpl.
  - split; [intros _ c []|eauto].
  - split.
    + intros [values H] c' [<-|I].
      * destruct (Dict.get cat_dict c) as [scores|]; [|discriminate].
        destruct (nth_error scores i) eqn:N; [|discriminate].
        exists scores. split; [reflexivity|].
        apply nth_error_Some. congruence.
      * apply (proj1 IH); [|exact I].
        destruct (Dict.get cat_dict c) as [scores|]; [|discriminate].
        destruct (nth_error scores i); [|discriminate].
        destruct (row cat_dict cs i); [discriminate|eauto].
    + intros H. destruct (H c (or_introl eq_refl)) as (scores & -> & L).
      destruct (nth_error scores i) eqn:N;
        [|apply nth_error_None in N; lia].
      destruct (proj2 IH) as [vs ->]; [intros c' I; apply H; now right|eauto].
Qed.

Lemma fill_frame categories cat_dict numbered : forall per_model per_model' k,
  fill numbered categories cat_dict per_model = inr per_model' ->
  ~ In k (map snd numbered) ->
  Dict.get per_model' k = Dict.get per_model k.
Proof.
  induction numbered as [|[i m] numbered IH]; intros pm pm' k H N; simpl in *.
  - now injection H as <-.
  - destruct (row cat_dict categories i) as [e|values]; [discriminate|].
    rewrite (IH _ _ _ H) by tauto. rewrite get_set.
    destruct (str_eqb m k) eqn:E; [|reflexivity].
    apply str_eqb_eq in E. tauto.
Qed.

Lemma fill_rows categories cat_dict numbered : forall per_model per_model',
  fill numbered categories cat_dict per_model = inr per_model' ->
  NoDup (map snd numbered) ->
  forall i m, In (i, m) numbered ->
    exists values, row cat_dict categories i = inr values /\
                   Dict.get per_model' m = Some values.
Proof.
  induction numbered as [|[i0 m0] numbered IH]; intros pm pm' H ND i m I;
    simpl in *; [destruct I|].
  destruct (row cat_dict categories i0) as [e|values] eqn:R; [discriminate|].
  inversion ND as [|? ? N0 ND']; subst.
  destruct I as [[= <- <-]|I].
  - exists values. split; [exact R|].
    rewrite (@fill_frame categories cat_dict numbered _ _ m0 H N0), get_set, str_eqb_refl.
    reflexivity.
  - now apply (IH _ _ H ND').
Qed.

Lemma fill_keys categories cat_dict numbered : forall per_model per_model',
  fill numbered categories cat_dict per_model = inr per_model' ->
  forall m values, Dict.get per_model' m = Some values ->
    Dict.get per_model m = Some values \/
    exists i, In (i, m) numbered /\ row cat_dict categories i = inr values.
Proof.
  induction numbered as [|[i0 m0] numbered IH]; intros pm pm' H m values G;
    simpl in *.
  - injection H as <-. now left.
  - destruct (row cat_dict categories i0) as [e|vals] eqn:R; [discriminate|].
    destruct (IH _ _ H _ _ G) as [G'|(i & I & Ri)].
    + rewrite get_set in G'. destruct (str_eqb m0 m) eqn:E; [|now left].
      apply str_eqb_eq in E. subst m0. injection G' as <-. right. eauto.
    + right. eauto.
Qed.

Lemma enumerate_from_In {B : Type} (l : list B) : forall k i x,
  In (i, x) (enumerate_from k l) <-> k <= i /\ nth_error l (i - k) = Some x.
Proof.
  induction l as [|y l IH]; intros k i x; simpl.
  - split; [intros []|]. intros [_ H]. destruct (i - k); discriminate.
  - rewrite IH. split.
    + intros [[= <- <-]|[L N]].
      * rewrite Nat.sub_diag. auto.
      * split; [lia|]. replace (i - k) with (S (i - S k)) by lia. exact N.
    + intros [L N]. destruct (i - k) as [|j] eqn:E.
      * left. injection N as <-. f_equal. lia.
      * right. split; [lia|]. replace (i - S k) with j by lia. exact N.
Qed.

Lemma enumerate_from_snd {B : Type} (l : list B) k :
  map snd (enumerate_from k l) = l.
Proof.
  revert k. induction l as [|y l IH]; intros k; simpl; [reflexivity|].
  now rewrite IH.
Qed.

(** X16.  When [to_per_model_dict] returns, the table has a row for every
    model and for nothing else, and every row has one value per category:
    the size [save_radar] checks for before it draws. *)
Theorem X16_per_model_table_has_a_full_row_per_model
  models categories cat_dict per_model :
  to_per_model_dict models categories cat_dict = inr per_model ->
  (forall m, In m models <-> exists values, Dict.get per_model m = Some values) /\
  (forall m values, Dict.get per_model m = Some values ->
     List.length values = List.length categories).
Proof.
  unfold to_per_model_dict, enumerate. intros H. split.
  - intros m. split.
    + intros I. revert H I. generalize (@nil (str * list A)) as pm. generalize 0 as k.
      induction models as [|m0 ms IH]; intros k pm H I; [destruct I|].
      simpl in H. destruct (row cat_dict categories k) as [e|vals]; [discriminate|].
      destruct (in_dec (list_eq_dec codepoint_eq_dec) m ms) as [I'|N].
      * now apply (IH _ _ H).
      * destruct I as [->|I]; [|contradiction].
        exists vals.
        rewrite (@fill_frame categories cat_dict (enumerate_from (S k) ms) _ _ m H)
          by now rewrite enumerate_from_snd.
        now rewrite get_set, str_eqb_refl.
    + intros [values G].
      destruct (@fill_keys categories cat_dict _ _ _ H m values G) as [G'|(i & I & _)];
        [discriminate|].
      apply (in_map snd) in I. now rewrite enumerate_from_snd in I.
  - intros m values G.
    destruct (@fill_keys categories cat_dict _ _ _ H m values G) as [G'|(i & _ & R)];
      [discriminate|].
    apply row_ok in R. symmetry. apply (Forall2_length R).
Qed.

Lemma row_entry cat_dict categories i values :
  row cat_dict categories i = inr values ->
  forall j c, nth_error categories j = Some c ->
    exists scores v,
      Dict.get cat_dict c = Some scores /\
      nth_error values j = Some v /\ nth_error scores i = Some v.
Proof.
  intros R. apply row_ok in R.
  induction R as [|c0 v0 cs vs (sc & Gc & Nc) R IH]; intros j c Hc.
  - destruct j; discriminate.
  - destruct j as [|j]; simpl in Hc.
    + injection Hc as ->. exists sc, v0. auto.
    + destruct (IH j c Hc) as (scores & v & Gs & Nv & Ns).
      exists scores, v. auto.
Qed.

(** X17.  The table is the transpose of the category table: for distinct
    model names, the row of the model at position [i] holds, for each
    category at position [j], value [i] of that category's list. *)
Theorem X17_per_model_table_is_the_transpose
  models categories cat_dict per_model (i j : nat) (m c : str) :
  to_per_model_dict models categories cat_dict = inr per_model ->
  NoDup models ->
  nth_error models i = Some m ->
  nth_error categories j = Some c ->
  exists values scores v,
    Dict.get per_model m = Some values /\
    Dict.get cat_dict c = Some scores /\
    nth_error values j = Some v /\ nth_error scores i = Some v.
Proof.
  unfold to_per_model_dict, enumerate. intros H ND Hm Hc.
  destruct (@fill_rows categories cat_dict (enumerate_from 0 models) [] per_model H)
    with (i := i) (m := m) as (values & R & G).
  - now rewrite enumerate_from_snd.
  - apply enumerate_from_In. split; [lia|]. now rewrite Nat.sub_0_r.
  - destruct (@row_entry cat_dict categories i values R j c Hc)
      as (scores & v & Gs & Nv & Ns).
    exists values, scores, v. auto.
Qed.

Lemma fill_succeeds categories cat_dict ms : forall k per_model,
  (exists per_model',
     fill (enumerate_from k ms) categories cat_dict per_model = inr per_model') <->
  (forall i, k <= i < k + List.length ms ->
     exists values, row cat_dict categories i = inr values).
Proof.
  induction ms as [|m ms IH]; intros k pm; simpl.
  - split; [intros _ i L; lia|eauto].
  - split.
    + intros [pm' H] i L.
      destruct (row cat_dict categories k) as [e|vals] eqn:R; [discriminate|].
      destruct (Nat.eq_dec i k) as [->|N]; [eauto|].
      apply (proj1 (IH (S k) (dict_set pm m vals))); [eauto|lia].
    + intros H. destruct (H k ltac:(lia)) as [vals ->].
      apply IH. intros i L. apply H. lia.
Qed.

(** X18.  [to_per_model_dict] fails with a missing key or an index out of
    range unless there is no model at all, or every category is a key of the
    category table whose list has a value for each model. *)
Theorem X18_per_model_table_exists_iff_category_table_is_wide_enough
  models categories cat_dict :
  (exists per_model, to_per_model_dict models categories cat_dict = inr per_model) <->
  (models = [] \/
   forall c, In c categories ->
     exists scores, Dict.get cat_dict c = Some scores /\
                    List.length models <= List.length scores).
Proof.
  unfold to_per_model_dict, enumerate. rewrite fill_succeeds. split.
  - intros H. destruct models as [|m ms]; [now left|right].
    intros c I.
    destruct (proj1 (row_succeeds cat_dict categories (List.length ms)))
      with (c := c) as (scores & G & L); [apply H; simpl; lia|exact I|].
    exists scores. split; [exact G|simpl; lia].
  - intros [->|H] i L; [simpl in L; lia|].
    apply row_succeeds. intros c I.
    destruct (H c I) as (scores & G & Ls). exists scores. split; [exact G|lia].
Qed.

End PerModel.

Lemma X16_witness :
  Visualization.to_per_model_dict [lit "phi3_mini"; lit "llama3.2_3b"]
    [lit "factual"; lit "procedural"]
    [(lit "factual", [0.49; 0.717]%Q); (lit "procedural", [0.5; 0.7]%Q)]
  = inr [(lit "phi3_mini", [0.49; 0.5]%Q); (lit "llama3.2_3b", [0.717; 0.7]%Q)] /\
  (forall m,
     In m [lit "phi3_mini"; lit "llama3.2_3b"] <->
     exists values,
       Dict.get [(lit "phi3_mini", [0.49; 0.5]%Q); (lit "llama3.2_3b", [0.717; 0.7]%Q)] m
       = Some values) /\
  (forall m values,
     Dict.get [(lit "phi3_mini", [0.49; 0.5]%Q); (lit "llama3.2_3b", [0.717; 0.7]%Q)] m
     = Some values ->
     List.length values = List.length [lit "factual"; lit "procedural"]).
Proof.
  split; [reflexivity|].
  apply (@X16_per_model_table_has_a_full_row_per_model Q
           [lit "phi3_mini"; lit "llama3.2_3b"] [lit "factual"; lit "procedural"]
           [(lit "factual", [0.49; 0.717]%Q); (lit "procedural", [0.5; 0.7]%Q)]).
  reflexivity.
Defined.

Lemma X17_witness :
  Visualization.to_per_model_dict [lit "phi3_mini"; lit "llama3.2_3b"]
    [lit "factual"; lit "procedural"]
    [(lit "factual", [0.49; 0.717]%Q); (lit "procedural", [0.5; 0.7]%Q)]
  = inr [(lit "phi3_mini", [0.49; 0.5]%Q); (lit "llama3.2_3b", [0.717; 0.7]%Q)] /\
  NoDup [lit "phi3_mini"; lit "llama3.2_3b"] /\
  nth_error [lit "phi3_mini"; lit "llama3.2_3b"] 1 = Some (lit "llama3.2_3b") /\
  nth_error [lit "factual"; lit "procedural"] 0 = Some (lit "factual") /\
  exists values scores v,
    Dict.get [(lit "phi3_mini", [0.49; 0.5]%Q); (lit "llama3.2_3b", [0.717; 0.7]%Q)]
             (lit "llama3.2_3b") = Some values /\
    Dict.get [(lit "factual", [0.49; 0.717]%Q); (lit "procedural", [0.5; 0.7]%Q)]
             (lit "factual") = Some scores /\
    nth_error values 0 = Some v /\ nth_error scores 1 = Some v.
Proof.
  assert (ND : NoDup [lit "phi3_mini"; lit "llama3.2_3b"]).
  { constructor; [|constructor; [intros []|constructor]].
    intros [H|[]]. vm_compute in H. discriminate. }
  split; [reflexivity|]. split; [exact ND|].
  split; [reflexivity|]. split; [reflexivity|].
  apply (@X17_per_model_table_is_the_transpose Q
           [lit "phi3_mini"; lit "llama3.2_3b"] [lit "factual"; lit "procedural"]
           [(lit "factual", [0.49; 0.717]%Q); (lit "procedural", [0.5; 0.7]%Q)]
           _ 1 0 (lit "llama3.2_3b") (lit "factual"));
    [reflexivity|exact ND|reflexivity|reflexivity].
Defined.

(** * query *)

Section QueryFacts.

Import RagSystem.

Variables W M C : Type.
Variable post : W -> request -> W * exchange.
Variable retrieve : W -> str -> Z -> W * (C + list (retrieved_doc M)).

(** X19.  [query] lets through only what the retrieval raises; whatever
    happens to the HTTP exchange comes back in the returned dictionary.  In
    it [success] is true exactly when [error] is [None], which is exactly
    when the request carrying the built prompt got status 200 and a JSON
    object; when [success] is false the answer is the empty string. *)
Theorem X19_query_reports_model_failures_in_band
  (w : W) (question model question_type : str) (top_k : Z) :
  match query post retrieve w question model question_type top_k with
  | (w', inl e) => retrieve w question top_k = (w', inl e)
  | (w', inr a) =>
      exists w1 docs,
        retrieve w question top_k = (w1, inr docs) /\
        a_retrieved_docs a = docs /\
        a_question a = question /\ a_question_type a = question_type /\
        a_model a = model /\
        (a_success a = true <-> a_error a = None) /\
        (a_success a = false -> a_answer a = lit "") /\
        (a_success a = true <->
         exists response,
           post w1 {| url := lit "http://localhost:11434" ++ lit "/api/generate";
                      json_model := model;
                      json_prompt := build_prompt question docs question_type;
                      json_temperature := 0.7;
                      json_stream := false;
                      timeout := 120 |}
           = (w', Reply 200 (JsonObject response)))
  end.
Proof.
  unfold query, generate.
  destruct (retrieve w question top_k) as [w1 [e|docs]]; [reflexivity|].
  destruct (post w1 _) as [w2 [text|code [text|response]]] eqn:P; cbv zeta.
  - exists w1, docs. repeat split; try discriminate; try reflexivity.
    intros [response H]. pose proof (eq_trans (eq_sym P) H) as X. discriminate X.
  - destruct (Z.eqb_spec code 200) as [->|N];
      exists w1, docs; repeat split; try discriminate; try reflexivity;
      intros [response H]; pose proof (eq_trans (eq_sym P) H) as X; discriminate X.
  - destruct (Z.eqb_spec code 200) as [->|N];
      exists w1, docs; repeat split; try discriminate; try reflexivity.
    + intros _. exists response. exact P.
    + intros [r H]. pose proof (eq_trans (eq_sym P) H) as X. congruence.
Qed.

End QueryFacts.

(** * load_questions *)

Section LoadQuestions.

Import Builtins RunExperiment.

Lemma lines_from_one_line q : forall rest line,
  one_line q = true -> lines_from (q ++ rest) line = lines_from rest (line ++ q).
Proof.
  induction q as [|c q IH]; intros rest line H.
  - now rewrite app_nil_r.
  - simpl in H. apply andb_true_iff in H as [Hc Hq].
    apply negb_true_iff, orb_false_iff in Hc as [Hn Hr].
    simpl. rewrite Hn, Hr, (IH _ _ Hq). now rewrite <- app_assoc.
Qed.

Lemma lstrip_all_space q : forallb is_space q = true -> lstrip q = [].
Proof.
  induction q as [|c q IH]; [reflexivity|]. simpl.
  intros H. apply andb_true_iff in H as [-> H]. now apply IH.
Qed.

Lemma lstrip_app_space q c :
  is_space c = true ->
  lstrip (q ++ [c]) = if forallb is_space q then [] else lstrip q ++ [c].
Proof.
  intros Hc. induction q as [|d q IH]; simpl.
  - now rewrite Hc.
  - destruct (is_space d); [exact IH|reflexivity].
Qed.

Lemma rstrip_app_space x c : is_space c = true -> rstrip (x ++ [c]) = rstrip x.
Proof.
  intros Hc. unfold rstrip. rewrite rev_app_distr. simpl. now rewrite Hc.
Qed.

(** The line feed that ends a line is stripped with the rest. *)
Lemma strip_line q : strip (q ++ [line_feed]) = strip q.
Proof.
  unfold strip. rewrite (@lstrip_app_space q line_feed eq_refl).
  destruct (forallb is_space q) eqn:E.
  - now rewrite (lstrip_all_space q E).
  - now apply rstrip_app_space.
Qed.

Lemma read_questions_join (questions : list str) :
  Forall (fun q => one_line q = true) questions ->
  read_questions (join [line_feed] questions)
  = map strip (filter (fun q => truthy (strip q)) questions).
Proof.
  unfold read_questions, lines.
  induction 1 as [|q l Hq Hl IH]; [reflexivity|].
  destruct l as [|q' l].
  - change (join [line_feed] [q]) with q.
    rewrite <- (app_nil_r q) at 1. rewrite (lines_from_one_line q [] [] Hq).
    cbn [app lines_from]. destruct q; reflexivity.
  - change (join [line_feed] (q :: q' :: l))
      with (q ++ [line_feed] ++ join [line_feed] (q' :: l)).
    rewrite (lines_from_one_line q _ [] Hq). cbn [app lines_from].
    change (codepoint_eqb line_feed line_feed) with true. cbv iota.
    cbn [filter]. rewrite strip_line.
    destruct (truthy (strip q)); cbn [map]; now rewrite ?strip_line, IH.
Qed.

(** X20.  Questions written one per line are read back stripped, without
    the blank ones: for questions that hold no line break, reading the file
    that [load_questions] writes for them returns them in order, each
    stripped of surrounding white space, those that are blank left out. *)
Theorem X20_questions_file_round_trip (questions : list str) :
  Forall (fun q => one_line q = true) questions ->
  read_questions (join [line_feed] questions)
  = map strip (filter (fun q => truthy (strip q)) questions).
Proof. apply read_questions_join. Qed.

Lemma X20_witness :
  Forall (fun q => one_line q = true)
         [lit "  Where is the library? "; lit "   "; lit "How do I pay?"] /\
  read_questions
    (join [line_feed] [lit "  Where is the library? "; lit "   "; lit "How do I pay?"])
  = map strip
      (filter (fun q => truthy (strip q))
              [lit "  Where is the library? "; lit "   "; lit "How do I pay?"]).
Proof.
  assert (F : Forall (fun q => one_line q = true)
                [lit "  Where is the library? "; lit "   "; lit "How do I pay?"])
    by (repeat constructor).
  split; [exact F|].
  apply (@X20_questions_file_round_trip
           [lit "  Where is the library? "; lit "   "; lit "How do I pay?"] F).
Defined.

Lemma load_present files :
  load_questions (Present files) =
  (Present files,
   Some (map (fun qtype =>
                (qtype,
                 match Dict.get files (qtype ++ lit ".txt") with
                 | Some content => read_questions content
                 | None => []
                 end))
             question_types)).
Proof.
  unfold load_questions, question_types. cbn [fold_left map].
  destruct (Dict.get files (lit "factual" ++ lit ".txt")),
    (Dict.get files (lit "procedural" ++ lit ".txt")),
    (Dict.get files (lit "comparative" ++ lit ".txt")),
    (Dict.get files (lit "recommendation" ++ lit ".txt")); reflexivity.
Qed.

(** X21.  [load_questions] on a missing directory creates it with the four
    example files and returns nothing; called again it returns exactly the
    example questions.  On a directory that exists it changes nothing and
    returns one list for each of the four question types, in their order: what
    the type's file holds, or the empty list when there is no such file. *)
Theorem X21_load_questions_creates_then_loads :
  (exists created,
     load_questions Absent = (created, None) /\
     load_questions created = (created, Some examples)) /\
  (forall files,
     load_questions (Present files) =
     (Present files,
      Some (map (fun qtype =>
                   (qtype,
                    match Dict.get files (qtype ++ lit ".txt") with
                    | Some content => read_questions content
                    | None => []
                    end))
                question_types))).
Proof.
  split; [|exact load_present].
  eexists. split; [reflexivity|]. vm_compute. reflexivity.
Qed.

Section ThenRun.

Variables W E D : Type.
Variable rag_query : W -> str -> str -> str -> Z -> W * (E + query_result D).


End ThenRun.

End LoadQuestions.

